(** * selfdrive/controls/lib/events.py: the event log and its alerts

    A shallow embedding of the [Events] class, of [Alert] and of the
    [Priority]/[ET] enumerations, with the properties of the event/alert
    engine proved about it.

    Python values are modelled as follows.
    - event names ([car.CarEvent.EventName], a capnp enum read back through
      [e.name.raw]) are natural numbers;
    - [float] is IEEE binary64, the kernel's primitive [float];
    - [int] is [Z]; the implicit conversion in [float * int] rounds to nearest
      even and raises [OverflowError] beyond the binary64 range;
    - [Alert] instances are objects: the registry and the lists returned by
      [create_alerts] hold references into a store, so that the attribute
      assignments of [create_alerts] are visible through every alias;
    - methods run in a state-and-exception monad over the store and [self]. *)

From Stdlib Require Import ZArith Floats.
From stdpp Require Import gmap strings list fin_maps.

Local Open Scope Z_scope.

(** ** Enumerations *)

(** [class Priority(IntEnum)] *)
Inductive Priority : Set :=
  | LOWEST | LOWER | LOW | MID | HIGH | HIGHEST.

Definition Priority_value (p : Priority) : Z :=
  match p with
  | LOWEST => 0 | LOWER => 1 | LOW => 2 | MID => 3 | HIGH => 4 | HIGHEST => 5
  end.

(** [class ET]: the eight event types. *)
Inductive ET : Set :=
  | ENABLE | PRE_ENABLE | NO_ENTRY | WARNING
  | USER_DISABLE | SOFT_DISABLE | IMMEDIATE_DISABLE | PERMANENT.

(** The string each [ET] constant is bound to. *)
Definition ET_str (et : ET) : string :=
  match et with
  | ENABLE => "enable"
  | PRE_ENABLE => "preEnable"
  | NO_ENTRY => "noEntry"
  | WARNING => "warning"
  | USER_DISABLE => "userDisable"
  | SOFT_DISABLE => "softDisable"
  | IMMEDIATE_DISABLE => "immediateDisable"
  | PERMANENT => "permanent"
  end.

#[global] Instance ET_eq_dec : EqDecision ET.
Proof. solve_decision. Defined.

Definition ET_code (et : ET) : nat :=
  match et with
  | ENABLE => 0 | PRE_ENABLE => 1 | NO_ENTRY => 2 | WARNING => 3
  | USER_DISABLE => 4 | SOFT_DISABLE => 5 | IMMEDIATE_DISABLE => 6
  | PERMANENT => 7
  end%nat.

Definition ET_of_code (n : nat) : ET :=
  match n with
  | 0 => ENABLE | 1 => PRE_ENABLE | 2 => NO_ENTRY | 3 => WARNING
  | 4 => USER_DISABLE | 5 => SOFT_DISABLE | 6 => IMMEDIATE_DISABLE
  | _ => PERMANENT
  end%nat.

#[global] Instance ET_countable : Countable ET.
Proof. apply (inj_countable' ET_code ET_of_code). by intros []. Defined.

(** The capnp enumerations of cereal ([log.ControlsState.AlertStatus],
    [log.ControlsState.AlertSize], [car.CarControl.HUDControl.VisualAlert]
    and [AudibleAlert]) are declared outside this module; they are
    represented by the enumerants this module names. *)
Inductive AlertStatus : Set :=
  | status_normal | status_userPrompt | status_critical.

Inductive AlertSize : Set :=
  | size_none | size_small | size_mid | size_full.

Inductive VisualAlert : Set :=
  | visual_none | visual_fcw | visual_steerRequired | visual_brakePressed.

Inductive AudibleAlert : Set :=
  | audible_none | chimeEngage | chimeDisengage | chimeError
  | chimeWarning1 | chimePrompt | chimeWarningRepeat | chimeWarning2Repeat
  | chimeModeOpenpilot | chimeModeDistcurv | chimeModeDistance
  | chimeModeOneway.

(** ** Alerts *)

(** The raw value of an [EventName] enumerant. *)
Abbreviation EventId := N (only parsing).

(** The attributes [Alert.__init__] sets. *)
Record Alert : Set := mkAlert {
  alert_text_1 : string;
  alert_text_2 : string;
  alert_status : AlertStatus;
  alert_size : AlertSize;
  alert_priority : Priority;
  visual_alert : VisualAlert;
  audible_alert : AudibleAlert;
  duration_sound : float;
  duration_hud_alert : float;
  duration_text : float;
  alert_rate : float;
  creation_delay : float;
  start_time : float;
  alert_type : string;
  event_type : option ET
}.

(** [Alert.__init__], with [alert_rate] and [creation_delay] passed
    explicitly (both default to [0.]). *)
Definition Alert_init (alert_text_1 alert_text_2 : string)
    (alert_status : AlertStatus) (alert_size : AlertSize)
    (alert_priority : Priority) (visual_alert : VisualAlert)
    (audible_alert : AudibleAlert)
    (duration_sound duration_hud_alert duration_text : float)
    (alert_rate creation_delay : float) : Alert :=
  mkAlert alert_text_1 alert_text_2 alert_status alert_size alert_priority
          visual_alert audible_alert
          duration_sound duration_hud_alert duration_text
          alert_rate creation_delay
          0%float "" None.

(** [Alert.__gt__] *)
Definition Alert_gt (self alert2 : Alert) : bool :=
  Priority_value (alert_priority self) >? Priority_value (alert_priority alert2).

(** [alert.alert_type = v] and [alert.event_type = v] *)
Definition set_alert_type (v : string) (a : Alert) : Alert :=
  mkAlert (alert_text_1 a) (alert_text_2 a) (alert_status a) (alert_size a)
          (alert_priority a) (visual_alert a) (audible_alert a)
          (duration_sound a) (duration_hud_alert a) (duration_text a)
          (alert_rate a) (creation_delay a) (start_time a)
          v (event_type a).

Definition set_event_type (v : option ET) (a : Alert) : Alert :=
  mkAlert (alert_text_1 a) (alert_text_2 a) (alert_status a) (alert_size a)
          (alert_priority a) (visual_alert a) (audible_alert a)
          (duration_sound a) (duration_hud_alert a) (duration_text a)
          (alert_rate a) (creation_delay a) (start_time a)
          (alert_type a) v.

(** ** The object store and the method monad *)

(** A reference to an [Alert] instance: its index in the store. *)
Abbreviation loc := nat (only parsing).

(** What the registry binds an event type to: an [Alert] instance, or a
    callback building one from [callback_args]. *)
Inductive AlertSpec (Args : Type) : Type :=
  | Static (l : loc)
  | Callback (f : Args -> Alert).
Arguments Static {Args} l.
Arguments Callback {Args} f.

(** The attributes of an [Events] instance. *)
Record Events : Type := mkEvents {
  events : list EventId;
  static_events : list EventId;
  events_prev : gmap EventId Z
}.

Record world : Type := mkWorld {
  self : Events;
  heap : list Alert
}.

Inductive exn : Set := KeyError | TypeError | OverflowError.

(** A method call returns a value, raises, or goes [Wrong]: the last stands
    for dereferencing a reference that is not in the store, which no
    execution of the Python program does. *)
Inductive outcome (A : Type) : Type :=
  | Return (a : A) (w : world)
  | Raised (e : exn) (w : world)
  | Wrong.
Arguments Return {A} a w.
Arguments Raised {A} e w.
Arguments Wrong {A}.

Definition M (A : Type) : Type := world -> outcome A.

#[global] Instance M_ret : MRet M := fun A a w => Return a w.

#[global] Instance M_bind : MBind M := fun A B f m w =>
  match m w with
  | Return a w' => f a w'
  | Raised e w' => Raised e w'
  | Wrong => Wrong
  end.

Definition raise {A} (e : exn) : M A := fun w => Raised e w.

Definition get_self : M Events := fun w => Return (self w) w.

Definition put_self (s : Events) : M unit :=
  fun w => Return tt (mkWorld s (heap w)).

(** [d[k]] on a dict *)
Definition getitem `{Countable K} {V} (d : gmap K V) (k : K) : M V :=
  match d !! k with
  | Some v => mret v
  | None => raise KeyError
  end.

(** Reading the attributes of the object behind a reference. *)
Definition deref (l : loc) : M Alert := fun w =>
  match heap w !! l with
  | Some a => Return a w
  | None => Wrong
  end.

(** Assigning an attribute of the object behind a reference. *)
Definition setattr (l : loc) (f : Alert -> Alert) : M unit := fun w =>
  match heap w !! l with
  | Some a => Return tt (mkWorld (self w) (<[l := f a]> (heap w)))
  | None => Wrong
  end.

(** A constructor call: a new object, referenced by nothing else. *)
Definition alloc (a : Alert) : M loc := fun w =>
  Return (length (heap w)) (mkWorld (self w) (heap w ++ [a])).

(** A [for] loop whose body updates a local variable. *)
Fixpoint for_each {X A} (xs : list X) (body : A -> X -> M A) (acc : A) : M A :=
  match xs with
  | [] => mret acc
  | x :: xs' => acc' ← body acc x; for_each xs' body acc'
  end.

(** The binary64 value nearest to an integer (ties to even); infinite when
    the integer is beyond the binary64 range. *)
Definition Z2float (z : Z) : float :=
  SF2Prim (binary_normalize prec emax z 0 false).

(** The conversion of the [int] operand in [float * int]. *)
Definition float_of_int (z : Z) : M float :=
  if PrimFloat.is_infinity (Z2float z) then raise OverflowError
  else mret (Z2float z).

(** ** Wire messages *)

(** A [car.CarEvent] message: the name and one flag per event type. *)
Record CarEvent : Set := mkCarEvent {
  name : EventId;
  enable : bool;
  preEnable : bool;
  noEntry : bool;
  warning : bool;
  userDisable : bool;
  softDisable : bool;
  immediateDisable : bool;
  permanent : bool
}.

(** [car.CarEvent.new_message()] followed by [event.name = event_name]. *)
Definition CarEvent_new (event_name : EventId) : CarEvent :=
  mkCarEvent event_name false false false false false false false false.

(** [setattr(event, event_type, True)] *)
Definition CarEvent_set (ev : CarEvent) (et : ET) : CarEvent :=
  match ev with
  | mkCarEvent n a b c d e f g h =>
    match et with
    | ENABLE => mkCarEvent n true b c d e f g h
    | PRE_ENABLE => mkCarEvent n a true c d e f g h
    | NO_ENTRY => mkCarEvent n a b true d e f g h
    | WARNING => mkCarEvent n a b c true e f g h
    | USER_DISABLE => mkCarEvent n a b c d true f g h
    | SOFT_DISABLE => mkCarEvent n a b c d e true g h
    | IMMEDIATE_DISABLE => mkCarEvent n a b c d e f true h
    | PERMANENT => mkCarEvent n a b c d e f g true
    end
  end.

(** [getattr(event, event_type)] *)
Definition CarEvent_get (ev : CarEvent) (et : ET) : bool :=
  match et with
  | ENABLE => enable ev
  | PRE_ENABLE => preEnable ev
  | NO_ENTRY => noEntry ev
  | WARNING => warning ev
  | USER_DISABLE => userDisable ev
  | SOFT_DISABLE => softDisable ev
  | IMMEDIATE_DISABLE => immediateDisable ev
  | PERMANENT => permanent ev
  end.

(** ** class Events *)

Section Registry.

(** The arguments the callbacks are applied to: [CP], [sm] and [metric]. *)
Variable Args : Type.

(** The module-level table [EVENTS], [EVENT_NAME] (built from the capnp
    schema) and [DT_CTRL] (imported from [common.realtime]). *)
Variable EVENTS : gmap EventId (gmap ET (AlertSpec Args)).
Variable EVENT_NAME : gmap EventId string.
Variable DT_CTRL : float.

(** [EVENTS.get(e, {})] *)
Definition EVENTS_get (e : EventId) : gmap ET (AlertSpec Args) :=
  default ∅ (EVENTS !! e).

(** [Events.__init__] *)
Definition Events_init : Events :=
  mkEvents [] [] ((fun _ => 0) <$> EVENTS).

(** [Events.names] *)
Definition names : M (list EventId) :=
  s ← get_self; mret (events s).

(** [Events.__len__] *)
Definition len : M nat :=
  s ← get_self; mret (length (events s)).

(** [Events.add] *)
Definition add (event_name : EventId) (static : bool) : M unit :=
  (if static
   then s ← get_self;
        put_self (mkEvents (events s) (static_events s ++ [event_name])
                           (events_prev s))
   else mret tt);;
  s ← get_self;
  put_self (mkEvents (events s ++ [event_name]) (static_events s)
                     (events_prev s)).

(** [Events.clear] *)
Definition clear : M unit :=
  s ← get_self;
  put_self (mkEvents (events s) (static_events s)
    (map_imap (fun k v =>
       Some (if bool_decide (k ∈ events s) then v + 1 else 0))
       (events_prev s)));;
  s ← get_self;
  put_self (mkEvents (static_events s) (static_events s) (events_prev s)).

(** The loop of [Events.any], which returns at the first match. *)
Fixpoint any_loop (event_type : ET) (es : list EventId) : bool :=
  match es with
  | [] => false
  | e :: es' =>
    if bool_decide (event_type ∈ dom (EVENTS_get e)) then true
    else any_loop event_type es'
  end.

(** [Events.any] *)
Definition any (event_type : ET) : M bool :=
  s ← get_self; mret (any_loop event_type (events s)).

(** [self.events_prev[e] + 1], the operand of the test in
    [Events.create_alerts]. *)
Definition elapsed_cycles (e : EventId) : M Z :=
  s ← get_self;
  prev ← getitem (events_prev s) e;
  mret (prev + 1).

(** [Events.create_alerts]: the body of [if et in types:]. *)
Definition create_alert (callback_args : option Args) (e : EventId)
    (ret : list loc) (et : ET) : M (list loc) :=
  types ← getitem EVENTS e;
  spec ← getitem types et;
  alert ← match spec with
          | Static l => mret l
          | Callback f =>
            match callback_args with
            | Some args => alloc (f args)
            | None => raise TypeError
            end
          end;
  n ← elapsed_cycles e;
  elapsed ← float_of_int n;
  a ← deref alert;
  if PrimFloat.leb (creation_delay a) (DT_CTRL * elapsed)
  then
    event_name ← getitem EVENT_NAME e;
    setattr alert (set_alert_type (event_name +:+ "/" +:+ ET_str et));;
    setattr alert (set_event_type (Some et));;
    mret (ret ++ [alert])
  else mret ret.

(** [Events.create_alerts]; [callback_args] is [None] when omitted, and the
    callbacks are then applied to no argument at all. *)
Definition create_alerts (event_types : list ET)
    (callback_args : option Args) : M (list loc) :=
  s ← get_self;
  for_each (events s) (fun ret e =>
    types ← getitem EVENTS e;
    for_each event_types (fun ret et =>
      if bool_decide (et ∈ dom types)
      then create_alert callback_args e ret et
      else mret ret) ret) [].

(** [Events.add_from_msg] *)
Definition add_from_msg (msg : list CarEvent) : M unit :=
  for_each msg (fun _ e =>
    s ← get_self;
    put_self (mkEvents (events s ++ [name e]) (static_events s)
                       (events_prev s))) tt.

(** [Events.to_msg]. The order in which the flags of one message are set
    does not show in the message; here it is the order of the map's
    keys. *)
Definition to_msg : M (list CarEvent) :=
  s ← get_self;
  for_each (events s) (fun ret event_name =>
    event ← for_each (map_to_list (EVENTS_get event_name)).*1
              (fun event event_type => mret (CarEvent_set event event_type))
              (CarEvent_new event_name);
    mret (ret ++ [event])) [].

(** *** Sequences of calls *)

(** A call of one of the methods above. *)
Inductive call : Type :=
  | call_add (event_name : EventId) (static : bool)
  | call_clear
  | call_any (event_type : ET)
  | call_create_alerts (event_types : list ET) (callback_args : option Args)
  | call_add_from_msg (msg : list CarEvent)
  | call_to_msg
  | call_names
  | call_len.

(** The state a call leaves behind, whether it returns or raises. *)
Definition after {A} (m : M A) (w : world) : world :=
  match m w with
  | Return _ w' | Raised _ w' => w'
  | Wrong => w
  end.

Definition exec (c : call) : world -> world :=
  match c with
  | call_add event_name static => after (add event_name static)
  | call_clear => after clear
  | call_any event_type => after (any event_type)
  | call_create_alerts event_types callback_args =>
    after (create_alerts event_types callback_args)
  | call_add_from_msg msg => after (add_from_msg msg)
  | call_to_msg => after to_msg
  | call_names => after names
  | call_len => after len
  end.

Definition run (cs : list call) (w : world) : world :=
  foldl (fun w c => exec c w) w cs.

(** One control cycle as far as the log is concerned: the events raised
    in the cycle are added, and [clear] ends it. *)
Definition cycle (adds : list (EventId * bool)) : M unit :=
  for_each adds (fun _ x => add x.1 x.2) tt;;
  clear.

Definition cycles (css : list (list (EventId * bool))) : M unit :=
  for_each css (fun _ adds => cycle adds) tt.

(** A log of a new [Events()] in which the counter of [e] has reached
    [n], with the given active and static events. *)
Definition log_with (active static : list EventId) (e : EventId) (n : Z)
    (h : list Alert) : world :=
  mkWorld (mkEvents active static (<[e := n]> (events_prev Events_init))) h.

(** *** What [create_alerts] is expected to return *)

(** [EVENTS[e][et]], when both keys are present. *)
Definition spec_at (e : EventId) (et : ET) : option (AlertSpec Args) :=
  EVENTS !! e ≫= (.!! et).

(** The alert a registry entry resolves to. *)
Definition resolve (h : list Alert) (callback_args : option Args)
    (spec : AlertSpec Args) : option Alert :=
  match spec with
  | Static l => h !! l
  | Callback f => f <$> callback_args
  end.

(** [f"{EVENT_NAME[e]}/{et}"] *)
Definition alert_tag (e : EventId) (et : ET) : string :=
  default "" (EVENT_NAME !! e) +:+ "/" +:+ ET_str et.

(** An alert with the two attributes [create_alerts] assigns. *)
Definition stamp (e : EventId) (et : ET) (a : Alert) : Alert :=
  set_event_type (Some et) (set_alert_type (alert_tag e et) a).

(** [DT_CTRL * (self.events_prev[e] + 1) >= alert.creation_delay] *)
Definition passes (s : Events) (e : EventId) (a : Alert) : bool :=
  PrimFloat.leb (creation_delay a)
                (DT_CTRL * Z2float (default 0 (events_prev s !! e) + 1)).

(** The alerts event [e] contributes for the requested type [et]. *)
Definition emitted (w : world) (callback_args : option Args)
    (e : EventId) (et : ET) : list Alert :=
  match spec_at e et ≫= resolve (heap w) callback_args with
  | Some a => if passes (self w) e a then [stamp e et a] else []
  | None => []
  end.

(** An alert with [alert_type] and [event_type] blanked: all the
    attributes [create_alerts] does not assign. *)
Definition erase (a : Alert) : Alert :=
  set_event_type None (set_alert_type "" a).

(** The reference of a registry entry that is an instance. *)
Definition spec_loc (spec : AlertSpec Args) : option loc :=
  match spec with
  | Static l => Some l
  | Callback _ => None
  end.

(** The store holds the registry's instances, each bound once: the table
    builds every entry with a constructor call of its own. *)
Definition store_ok (h : list Alert) : Prop :=
  map_Forall (fun e1 types1 =>
    map_Forall (fun et1 spec1 =>
      match spec_loc spec1 with
      | Some l =>
        (l < length h)%nat /\
        map_Forall (fun e2 types2 =>
          map_Forall (fun et2 spec2 =>
            spec_loc spec2 = Some l -> e1 = e2 /\ et1 = et2) types2) EVENTS
      | None => True
      end) types1) EVENTS.

(** Whether the body of [if et in types:] runs to its end for [e] and
    [et]: the counter of [e] is there and converts to a float, the entry is
    an instance or a callback that is given its arguments, and [e] has a
    name if the alert passes the test. *)
Definition entry_ready (w : world) (callback_args : option Args)
    (e : EventId) (et : ET) : bool :=
  match spec_at e et with
  | None => true
  | Some spec =>
    match events_prev (self w) !! e, resolve (heap w) callback_args spec with
    | Some c, Some a =>
      negb (PrimFloat.is_infinity (Z2float (c + 1)))
      && (if passes (self w) e a
          then bool_decide (is_Some (EVENT_NAME !! e))
          else true)
    | _, _ => false
    end
  end.

(** The condition under which [create_alerts] runs to its [return]: every
    active event is a key of [EVENTS], and the body runs to its end for
    each requested type. *)
Definition ready (event_types : list ET) (callback_args : option Args)
    (w : world) : bool :=
  forallb (fun e =>
    bool_decide (is_Some (EVENTS !! e))
    && forallb (entry_ready w callback_args e) event_types)
    (events (self w)).

(** *** Frames *)

(** What [create_alerts] leaves alone, whether it returns or raises:
    [self] and, in the store, the instances that exist, up to [alert_type]
    and [event_type]. *)
Definition frame (w w' : world) : Prop :=
  self w' = self w /\ erase <$> heap w `prefix_of` erase <$> heap w'.

Definition framed {A} (m : M A) : Prop :=
  forall w, match m w with
            | Return _ w' | Raised _ w' => frame w w'
            | Wrong => True
            end.

(** No call changes an instance the registry holds. *)
Definition registry_alerts_immutable : Prop :=
  forall c w e et l,
    spec_at e et = Some (Static l) ->
    heap (exec c w) !! l = heap w !! l.

(** *** The loops of [create_alerts] *)

(** What holds of the list [ret] built so far and of the current state
    [w], in a call started in [w0]: [self] and the constructor fields of
    the instances are those of [w0]; [ret] refers to the alerts [exp]; and
    an instance of the registry that is in [ret] carries the tag of its
    entry. *)
Definition loop_inv (w0 : world) (ret : list loc) (exp : list Alert)
    (w : world) : Prop :=
  frame w0 w
  /\ (fun l => heap w !! l) <$> ret = Some <$> exp
  /\ forall l, l ∈ ret -> (l < length (heap w0))%nat ->
       exists e et a,
         spec_at e et = Some (Static l)
         /\ heap w !! l = Some (stamp e et a).

(** *** What [to_msg] is expected to return *)

(** The message for one event: its name, and the flags of the event types
    the registry has for it. *)
Definition CarEvent_of (event_name : EventId) : CarEvent :=
  foldl CarEvent_set (CarEvent_new event_name)
        (map_to_list (EVENTS_get event_name)).*1.

End Registry.

Arguments Events_init {Args} EVENTS.
Arguments EVENTS_get {Args} EVENTS e.
Arguments any_loop {Args} EVENTS event_type es.
Arguments any {Args} EVENTS event_type _.
Arguments create_alert {Args} EVENTS EVENT_NAME DT_CTRL callback_args e ret et _.
Arguments create_alerts {Args} EVENTS EVENT_NAME DT_CTRL event_types callback_args _.
Arguments to_msg {Args} EVENTS _.
Arguments call_add {Args} event_name static.
Arguments call_clear {Args}.
Arguments call_any {Args} event_type.
Arguments call_create_alerts {Args} event_types callback_args.
Arguments call_add_from_msg {Args} msg.
Arguments call_to_msg {Args}.
Arguments call_names {Args}.
Arguments call_len {Args}.
Arguments exec {Args} EVENTS EVENT_NAME DT_CTRL c _.
Arguments run {Args} EVENTS EVENT_NAME DT_CTRL cs w.
Arguments spec_at {Args} EVENTS e et.
Arguments resolve {Args} h callback_args spec.
Arguments emitted {Args} EVENTS EVENT_NAME DT_CTRL w callback_args e et.
Arguments spec_loc {Args} spec.
Arguments store_ok {Args} EVENTS h.
Arguments entry_ready {Args} EVENTS EVENT_NAME DT_CTRL w callback_args e et.
Arguments ready {Args} EVENTS EVENT_NAME DT_CTRL event_types callback_args w.
Arguments registry_alerts_immutable {Args} EVENTS EVENT_NAME DT_CTRL.
Arguments CarEvent_of {Args} EVENTS event_name.
Arguments log_with {Args} EVENTS active static e n h.
Arguments loop_inv {Args} EVENTS EVENT_NAME w0 ret exp w.

#[global] Instance store_ok_dec {Args}
    (EVENTS : gmap EventId (gmap ET (AlertSpec Args))) (h : list Alert) :
  Decision (store_ok EVENTS h).
Proof.
  unfold store_ok. apply map_Forall_dec. intros e1 types1.
  apply map_Forall_dec. intros et1 spec1.
  destruct (spec_loc spec1) as [l|]; [|apply _].
  apply and_dec; [apply _|].
  apply map_Forall_dec. intros e2 types2.
  apply map_Forall_dec. intros et2 spec2. apply _.
Defined.

(** ** An excerpt of the table *)

(** Some entries of the module-level table [EVENTS], as a registry to run
    the methods on: the [Alert] instances of the table are the initial
    store, in the order the table builds them, and every entry refers to
    its own instance. The numbering of [EventName] belongs to the capnp
    schema, which is outside this module; the values below stand in for it
    and only their being distinct matters. *)
Module Excerpt.

#[local] Set Warnings "-inexact-float".
#[local] Open Scope float_scope.

Inductive PandaType : Set :=
  | panda_unknown | whitePanda | greyPanda | blackPanda | pedal | uno | dos.

(** What the two callbacks below read of [CP], [sm] and [metric]. *)
Record CallbackArgs : Set := mkArgs {
  CP_carName : string;
  sm_pandaState_pandaType : PandaType;
  metric : bool
}.

(** [NoEntryAlert.__init__]; the source defaults [audible_alert] to
    [chimeError], [visual_alert] to [none] and [duration_hud_alert]
    to [2.]. *)
Definition NoEntryAlert (alert_text_2 : string)
    (audible_alert : AudibleAlert) (visual_alert : VisualAlert)
    (duration_hud_alert : float) : Alert :=
  Alert_init "�������Ϸ� ���Ұ�" alert_text_2 status_normal
             size_mid LOW visual_alert
             audible_alert 0.4 duration_hud_alert 3 0 0.

(** [ImmediateDisableAlert.__init__], with the default [alert_text_1]. *)
Definition ImmediateDisableAlert (alert_text_2 : string) : Alert :=
  Alert_init "�ڵ��� ����ּ���" alert_text_2
             status_critical size_full
             HIGHEST visual_steerRequired
             chimeWarningRepeat 2.2 3 4 0 0.

(** [EngagementAlert.__init__] *)
Definition EngagementAlert (audible_alert : AudibleAlert) : Alert :=
  Alert_init "" ""
             status_normal size_none
             MID visual_none
             audible_alert 0.2 0 0 0 0.

(** [no_gps_alert] *)
Definition no_gps_alert (args : CallbackArgs) : Alert :=
  let gps_integrated :=
    match sm_pandaState_pandaType args with
    | uno | dos => true
    | _ => false
    end in
  Alert_init
    "GPS ��ȣ ����"
    (if gps_integrated then "ȯ�濡 ������ ������� �������� �����ϼ���" else "GPS���׳� ��ġ�� �����ϼ���")
    status_normal size_mid
    LOWER visual_none audible_none 0 0 0.2 0 300.

(** [wrong_car_mode_alert] *)
Definition wrong_car_mode_alert (args : CallbackArgs) : Alert :=
  let text := "ũ���� ��� ����" in
  let text := if String.eqb (CP_carName args) "honda"
              then "Main Switch Off" else text in
  NoEntryAlert text chimeError visual_none 0.

Definition debugAlert : EventId := 34%N.
Definition gasPressed : EventId := 60%N.
Definition pcmEnable : EventId := 23%N.
Definition wrongCarMode : EventId := 8%N.
Definition noGps : EventId := 64%N.
Definition controlsMismatch : EventId := 22%N.
Definition plannerError : EventId := 32%N.

(** The instances built while the table is evaluated. *)
Definition heap0 : list Alert :=
  [ (* 0: debugAlert / PERMANENT *)
    Alert_init "DEBUG ALERT" ""
               status_userPrompt size_mid
               LOW visual_none audible_none 0.1 0.1 0.1 0 0;
    (* 1: gasPressed / PRE_ENABLE *)
    Alert_init "�����߿��� �������Ϸ� �극��ũ �۵��Ұ�" ""
               status_normal size_small
               LOWEST visual_none audible_none 0.0 0.0 0.1 0 1;
    (* 2: pcmEnable / ENABLE *)
    EngagementAlert chimeEngage;
    (* 3: wrongCarMode / USER_DISABLE *)
    EngagementAlert chimeDisengage;
    (* 4: controlsMismatch / IMMEDIATE_DISABLE *)
    ImmediateDisableAlert "Controls Mismatch";
    (* 5, 6: plannerError / IMMEDIATE_DISABLE, NO_ENTRY *)
    ImmediateDisableAlert "Planner Solution Error";
    NoEntryAlert "Planner Solution Error" chimeError visual_none 2 ].

Definition EVENTS : gmap EventId (gmap ET (AlertSpec CallbackArgs)) :=
  list_to_map
    [ (debugAlert, list_to_map [(PERMANENT, Static 0%nat)]);
      (gasPressed, list_to_map [(PRE_ENABLE, Static 1%nat)]);
      (pcmEnable, list_to_map [(ENABLE, Static 2%nat)]);
      (wrongCarMode, list_to_map [(USER_DISABLE, Static 3%nat);
                                  (NO_ENTRY, Callback wrong_car_mode_alert)]);
      (noGps, list_to_map [(PERMANENT, Callback no_gps_alert)]);
      (controlsMismatch, list_to_map [(IMMEDIATE_DISABLE, Static 4%nat)]);
      (plannerError, list_to_map [(IMMEDIATE_DISABLE, Static 5%nat);
                                  (NO_ENTRY, Static 6%nat)]) ].

(** [EVENT_NAME], for the names above. *)
Definition EVENT_NAME : gmap EventId string :=
  list_to_map
    [ (debugAlert, "debugAlert"); (gasPressed, "gasPressed");
      (pcmEnable, "pcmEnable"); (wrongCarMode, "wrongCarMode");
      (noGps, "noGps"); (controlsMismatch, "controlsMismatch");
      (plannerError, "plannerError") ].

(** [DT_CTRL], the period of the control loop: 100 Hz in
    [common.realtime]. *)
Definition DT_CTRL : float := 0.01.

(** A freshly built [Events()] next to the table's instances. *)
Definition world0 : world := mkWorld (Events_init EVENTS) heap0.

Definition args0 : CallbackArgs := mkArgs "hyundai" uno true.

(** A log with an event twice, and three requested types. *)
Definition world1 : world :=
  after (add plannerError false)
    (after (add debugAlert false)
       (after (add plannerError false) world0)).

End Excerpt.

(** ** Histories of calls *)

Section Histories.

Variable Args : Type.
Variable EVENTS : gmap EventId (gmap ET (AlertSpec Args)).
Variable EVENT_NAME : gmap EventId string.

(** The names given to [add] with [static=True], in the order of the
    calls. *)
Definition static_adds (cs : list (call Args)) : list EventId :=
  cs ≫= fun c =>
    match c with
    | call_add event_name true => [event_name]
    | _ => []
    end.

(** The number of calls of [clear]. *)
Definition clears (cs : list (call Args)) : nat :=
  length (cs ≫= fun c =>
            match c with
            | call_clear => [c]
            | _ => []
            end).

(** What has become of the store: an instance is as it was, or it is an
    instance of the table and carries the tag of its own entry. *)
Definition tagged (w w' : world) : Prop :=
  forall l a,
    heap w !! l = Some a ->
    heap w' !! l = Some a
    \/ exists e et,
         spec_at EVENTS e et = Some (Static l)
         /\ heap w' !! l = Some (stamp EVENT_NAME e et a).

End Histories.

Arguments static_adds {Args} cs.
Arguments clears {Args} cs.
Arguments tagged {Args} EVENTS EVENT_NAME w w'.

(** ** Where the returned alerts come from *)

Section Origins.

Variable Args : Type.
Variable EVENTS : gmap EventId (gmap ET (AlertSpec Args)).
Variable EVENT_NAME : gmap EventId string.
Variable DT_CTRL : float.

(** The entry for [e] and [et], when it contributes an alert. *)
Definition emitting (w : world) (callback_args : option Args)
    (e : EventId) (et : ET) : list (EventId * ET) :=
  match emitted EVENTS EVENT_NAME DT_CTRL w callback_args e et with
  | [] => []
  | _ => [(e, et)]
  end.

(** The reference returned for an entry: the instance [EVENTS] holds when
    the entry is an instance, and otherwise an object that was not in the
    store [h0] before the call. *)
Definition origin_ok (h0 : list Alert) (l : loc) (p : EventId * ET) : Prop :=
  match spec_at EVENTS p.1 p.2 with
  | Some (Static l0) => l = l0
  | _ => (length h0 <= l)%nat
  end.

(** The invariant of the loops of [create_alerts] on references: [ret]
    holds the references of the entries [pairs], and an object of the
    store of [w0] that is not in [ret] is as it was. *)
Definition stamp_inv (w0 : world) (ret : list loc)
    (pairs : list (EventId * ET)) (w : world) : Prop :=
  frame w0 w
  /\ Forall2 (origin_ok (heap w0)) ret pairs
  /\ forall l, (l < length (heap w0))%nat -> l ∉ ret ->
       heap w !! l = heap w0 !! l.

End Origins.

Arguments emitting {Args} EVENTS EVENT_NAME DT_CTRL w callback_args e et.
Arguments origin_ok {Args} EVENTS h0 l p.
Arguments stamp_inv {Args} EVENTS w0 ret pairs w.

(** * Properties *)

(** ** The order on alerts *)

Lemma Priority_value_inj (p q : Priority) :
  Priority_value p = Priority_value q -> p = q.
Proof. by destruct p, q. Qed.

(** C9. [a > b] on alerts holds exactly when the priority of [a] is strictly
    greater than that of [b]; on the six priorities this comparison is a
    strict total order (irreflexive, transitive, and any two distinct
    priorities are comparable), with
    [LOWEST < LOWER < LOW < MID < HIGH < HIGHEST]. *)
Theorem Alert_gt_strict_total_order :
  (forall a b : Alert,
     Alert_gt a b = true <->
     Priority_value (alert_priority a) > Priority_value (alert_priority b))
  /\ (forall a : Alert, Alert_gt a a = false)
  /\ (forall a b c : Alert,
        Alert_gt a b = true -> Alert_gt b c = true -> Alert_gt a c = true)
  /\ (forall a b : Alert,
        alert_priority a <> alert_priority b ->
        Alert_gt a b = true \/ Alert_gt b a = true)
  /\ (forall a b : Alert,
        alert_priority a = alert_priority b ->
        Alert_gt a b = false /\ Alert_gt b a = false)
  /\ Priority_value LOWEST < Priority_value LOWER
     < Priority_value LOW
  /\ Priority_value LOW < Priority_value MID < Priority_value HIGH
  /\ Priority_value HIGH < Priority_value HIGHEST.
Proof.
  unfold Alert_gt. repeat split; intros.
  - by apply Z.gtb_gt.
  - by apply Z.gtb_gt.
  - rewrite Z.gtb_ltb. apply Z.ltb_irrefl.
  - rewrite !Z.gtb_ltb, !Z.ltb_lt in *. lia.
  - rewrite !Z.gtb_ltb, !Z.ltb_lt.
    destruct (Z.lt_trichotomy (Priority_value (alert_priority a))
                              (Priority_value (alert_priority b)))
      as [?|[Heq|?]]; [by right| |by left].
    by apply Priority_value_inj in Heq.
  - rewrite Z.gtb_ltb. apply Z.ltb_ge. by rewrite H.
  - rewrite Z.gtb_ltb. apply Z.ltb_ge. by rewrite H.
Qed.

(** ** The monad *)

Lemma bind_Return {A B} (m : M A) (f : A -> M B) w a w' :
  m w = Return a w' -> (m ≫= f) w = f a w'.
Proof. unfold mbind, M_bind. by intros ->. Qed.

(** ** [add] and [clear] *)

Lemma add_Return event_name static w :
  add event_name static w
  = Return tt (mkWorld
      (mkEvents (events (self w) ++ [event_name])
                (if static then static_events (self w) ++ [event_name]
                 else static_events (self w))
                (events_prev (self w)))
      (heap w)).
Proof. by destruct static. Qed.

Lemma clear_Return w :
  clear w
  = Return tt (mkWorld
      (mkEvents (static_events (self w)) (static_events (self w))
         (map_imap (fun k v =>
            Some (if bool_decide (k ∈ events (self w)) then v + 1 else 0))
            (events_prev (self w))))
      (heap w)).
Proof. done. Qed.

Lemma clear_events_prev w k :
  events_prev (self (after clear w)) !! k
  = (fun v => if bool_decide (k ∈ events (self w)) then v + 1 else 0)
      <$> events_prev (self w) !! k.
Proof.
  unfold after. rewrite clear_Return. simpl.
  rewrite map_lookup_imap. by destruct (events_prev (self w) !! k).
Qed.

(** ** Frames *)

Lemma erase_set_alert_type v a : erase (set_alert_type v a) = erase a.
Proof. done. Qed.

Lemma erase_set_event_type v a : erase (set_event_type v a) = erase a.
Proof. done. Qed.

Lemma erase_creation_delay a b :
  erase a = erase b -> creation_delay a = creation_delay b.
Proof. intros H. by apply (f_equal creation_delay) in H. Qed.

Lemma frame_refl w : frame w w.
Proof. by split. Qed.

Lemma frame_trans w1 w2 w3 : frame w1 w2 -> frame w2 w3 -> frame w1 w3.
Proof.
  intros [Hs1 Hh1] [Hs2 Hh2]. split; [congruence|]. by etrans.
Qed.

Lemma framed_ret {A} (a : A) : framed (mret a).
Proof. intros w. apply frame_refl. Qed.

Lemma framed_raise {A} e : framed (@raise A e).
Proof. intros w. apply frame_refl. Qed.

Lemma framed_bind {A B} (m : M A) (f : A -> M B) :
  framed m -> (forall a, framed (f a)) -> framed (m ≫= f).
Proof.
  intros Hm Hf w. specialize (Hm w). unfold mbind, M_bind.
  destruct (m w) as [a w1|e w1|]; [|done..].
  specialize (Hf a w1). destruct (f a w1); [|by eauto using frame_trans..|done].
  by eauto using frame_trans.
Qed.

Lemma framed_get_self : framed get_self.
Proof. intros w. apply frame_refl. Qed.

Lemma framed_getitem `{Countable K} {V} (d : gmap K V) k :
  framed (getitem d k).
Proof. intros w. unfold getitem. destruct (d !! k); apply frame_refl. Qed.

Lemma framed_deref l : framed (deref l).
Proof. intros w. unfold deref. destruct (heap w !! l); [apply frame_refl|done]. Qed.

Lemma framed_alloc a : framed (alloc a).
Proof.
  intros w. split; [done|]. simpl. rewrite fmap_app. by apply prefix_app_r.
Qed.

Lemma fmap_erase_insert (h : list Alert) l a (f : Alert -> Alert) :
  h !! l = Some a -> erase (f a) = erase a ->
  erase <$> <[l := f a]> h = erase <$> h.
Proof.
  intros Hl Hf. rewrite list_fmap_insert, Hf.
  apply list_insert_id. by rewrite list_lookup_fmap, Hl.
Qed.

Lemma framed_setattr l (f : Alert -> Alert) :
  (forall a, erase (f a) = erase a) -> framed (setattr l f).
Proof.
  intros Hf w. unfold setattr. destruct (heap w !! l) as [a|] eqn:Hl; [|done].
  split; [done|]. simpl. by rewrite (fmap_erase_insert _ _ a).
Qed.

Lemma framed_float_of_int z : framed (float_of_int z).
Proof.
  intros w. unfold float_of_int.
  destruct (PrimFloat.is_infinity _); apply frame_refl.
Qed.

Lemma framed_for_each {X A} (xs : list X) (body : A -> X -> M A) acc :
  (forall acc x, framed (body acc x)) -> framed (for_each xs body acc).
Proof.
  intros Hb. revert acc. induction xs as [|x xs IH]; intros acc; simpl.
  - apply framed_ret.
  - apply framed_bind; [apply Hb|apply IH].
Qed.

Lemma framed_elapsed_cycles e : framed (elapsed_cycles e).
Proof.
  apply framed_bind; [apply framed_get_self|]. intros s.
  apply framed_bind; [apply framed_getitem|]. intros prev. apply framed_ret.
Qed.

Ltac framed_step :=
  first
    [ apply framed_ret | apply framed_raise | apply framed_get_self
    | apply framed_getitem | apply framed_deref | apply framed_alloc
    | apply framed_float_of_int | apply framed_elapsed_cycles
    | apply framed_setattr; intros ?;
      first [apply erase_set_alert_type | apply erase_set_event_type]
    | apply framed_bind; [|intros ?]
    | apply framed_for_each; intros ? ? ].

(** ** Comparisons of floats *)

Lemma SFcompare_Lt_Gt (x y : spec_float) :
  SFcompare x y = Some Lt -> SFcompare y x = Some Gt.
Proof.
  destruct x as [sx|sx| |sx mx ex], y as [sy|sy| |sy my ey]; simpl;
    try destruct sx; try destruct sy; try discriminate; try reflexivity.
  - rewrite (Z.compare_antisym ex ey).
    destruct (ex ?= ey)%Z; simpl; try discriminate; try reflexivity.
    pose proof (Pos.compare_cont_antisym mx my Eq) as H. simpl in H.
    rewrite <- H. by destruct (Pos.compare_cont Eq mx my).
  - rewrite (Z.compare_antisym ex ey).
    destruct (ex ?= ey)%Z; simpl; try discriminate; try reflexivity.
    pose proof (Pos.compare_cont_antisym mx my Eq) as H. simpl in H.
    rewrite <- H. by destruct (Pos.compare_cont Eq mx my).
Qed.

(** [x == y] implies [y >= x]. *)
Lemma SFcompare_Eq_sym (x y : spec_float) :
  SFcompare x y = Some Eq -> SFcompare y x = Some Eq.
Proof.
  destruct x as [sx|sx| |sx mx ex], y as [sy|sy| |sy my ey]; simpl;
    try destruct sx; try destruct sy; try discriminate; try reflexivity.
  - rewrite (Z.compare_antisym ex ey).
    destruct (ex ?= ey)%Z; simpl; try discriminate; try reflexivity.
    pose proof (Pos.compare_cont_antisym mx my Eq) as H. simpl in H.
    rewrite <- H. by destruct (Pos.compare_cont Eq mx my).
  - rewrite (Z.compare_antisym ex ey).
    destruct (ex ?= ey)%Z; simpl; try discriminate; try reflexivity.
    pose proof (Pos.compare_cont_antisym mx my Eq) as H. simpl in H.
    rewrite <- H. by destruct (Pos.compare_cont Eq mx my).
Qed.

Lemma float_eqb_geb (x y : float) :
  PrimFloat.eqb x y = true -> PrimFloat.leb y x = true.
Proof.
  rewrite FloatAxioms.eqb_spec, leb_spec. unfold SFeqb, SFleb.
  destruct (SFcompare (Prim2SF x) (Prim2SF y)) as [[]|] eqn:Hc; try done.
  intros _. by rewrite (SFcompare_Eq_sym _ _ Hc).
Qed.

(** [x < y] excludes [x >= y]. *)
Lemma float_ltb_not_geb (x y : float) :
  PrimFloat.ltb x y = true -> PrimFloat.leb y x = false.
Proof.
  rewrite ltb_spec, leb_spec. unfold SFltb, SFleb.
  destruct (SFcompare (Prim2SF x) (Prim2SF y)) as [[]|] eqn:Hc; try done.
  intros _. by rewrite (SFcompare_Lt_Gt _ _ Hc).
Qed.

Section Facts.

Context {Args : Type}.
Variable EVENTS : gmap EventId (gmap ET (AlertSpec Args)).
Variable EVENT_NAME : gmap EventId string.
Variable DT_CTRL : float.

Lemma framed_create_alert callback_args e ret et :
  framed (create_alert EVENTS EVENT_NAME DT_CTRL callback_args e ret et).
Proof.
  unfold create_alert. repeat framed_step.
  - destruct a0 as [l|f]; [framed_step|].
    destruct callback_args; framed_step.
  - destruct (PrimFloat.leb _ _); repeat framed_step.
Qed.

Lemma framed_create_alerts event_types callback_args :
  framed (create_alerts EVENTS EVENT_NAME DT_CTRL event_types callback_args).
Proof.
  unfold create_alerts. repeat framed_step.
  case_bool_decide; [apply framed_create_alert|framed_step].
Qed.

(** *** The methods that leave the store alone *)

Lemma for_each_pure {X A} (xs : list X) (g : A -> X -> A) acc w :
  for_each xs (fun acc x => mret (g acc x)) acc w
  = Return (foldl g acc xs) w.
Proof.
  revert acc. induction xs as [|x xs IH]; intros acc; [done|].
  simpl. erewrite bind_Return; [|done]. apply IH.
Qed.

Lemma add_from_msg_Return msg w :
  add_from_msg msg w
  = Return tt (mkWorld
      (mkEvents (events (self w) ++ (name <$> msg))
                (static_events (self w)) (events_prev (self w)))
      (heap w)).
Proof.
  unfold add_from_msg. revert w.
  induction msg as [|e msg IH]; intros [[es ss prev] h]; simpl.
  - by rewrite app_nil_r.
  - erewrite bind_Return; [|done]. rewrite IH. simpl.
    by rewrite <- app_assoc.
Qed.

Lemma any_Return event_type w :
  any EVENTS event_type w
  = Return (any_loop EVENTS event_type (events (self w))) w.
Proof. done. Qed.

Lemma to_msg_loop_Return es ret w :
  for_each es (fun ret event_name =>
    event ← for_each (map_to_list (EVENTS_get EVENTS event_name)).*1
              (fun event event_type => mret (CarEvent_set event event_type))
              (CarEvent_new event_name);
    mret (ret ++ [event])) ret w
  = Return (ret ++ (CarEvent_of EVENTS <$> es)) w.
Proof.
  revert ret. induction es as [|e es IH]; intros ret; simpl.
  - by rewrite app_nil_r.
  - erewrite bind_Return.
    2:{ erewrite bind_Return; [|apply for_each_pure]. done. }
    rewrite IH. by rewrite <- app_assoc.
Qed.

Lemma to_msg_Return w :
  to_msg EVENTS w = Return (CarEvent_of EVENTS <$> events (self w)) w.
Proof.
  unfold to_msg. erewrite bind_Return; [|done]. apply to_msg_loop_Return.
Qed.

(** Every call leaves a frame: [self] may change only through [add],
    [clear] and [add_from_msg], the store only through [create_alerts]. *)
Lemma exec_store c w :
  erase <$> heap w `prefix_of`
    erase <$> heap (exec EVENTS EVENT_NAME DT_CTRL c w).
Proof.
  destruct c; simpl; unfold after;
    rewrite ?add_Return, ?clear_Return, ?any_Return, ?add_from_msg_Return,
            ?to_msg_Return; try done.
  pose proof (framed_create_alerts event_types callback_args w) as H.
  destruct (create_alerts _ _ _ _ _ w); [apply H..|done].
Qed.

Lemma exec_store_same c w :
  (forall event_types callback_args,
     c <> call_create_alerts event_types callback_args) ->
  heap (exec EVENTS EVENT_NAME DT_CTRL c w) = heap w.
Proof.
  intros Hc. destruct c; simpl; unfold after;
    rewrite ?add_Return, ?clear_Return, ?any_Return, ?add_from_msg_Return,
            ?to_msg_Return; try done.
  by destruct (Hc event_types callback_args).
Qed.

Lemma exec_create_alerts_self event_types callback_args w :
  self (exec EVENTS EVENT_NAME DT_CTRL
          (call_create_alerts event_types callback_args) w) = self w.
Proof.
  simpl. unfold after.
  pose proof (framed_create_alerts event_types callback_args w) as H.
  destruct (create_alerts _ _ _ _ _ w); [apply H..|done].
Qed.

Lemma exec_clear w :
  exec EVENTS EVENT_NAME DT_CTRL call_clear w
  = mkWorld
      (mkEvents (static_events (self w)) (static_events (self w))
         (map_imap (fun k v =>
            Some (if bool_decide (k ∈ events (self w)) then v + 1 else 0))
            (events_prev (self w))))
      (heap w).
Proof. done. Qed.

Lemma exec_static_events c w :
  static_events (self w) `prefix_of`
    static_events (self (exec EVENTS EVENT_NAME DT_CTRL c w)).
Proof.
  destruct c; try (by rewrite exec_create_alerts_self);
    simpl; unfold after;
    rewrite ?add_Return, ?clear_Return, ?any_Return, ?add_from_msg_Return,
            ?to_msg_Return; try done.
  simpl. destruct static; [by apply prefix_app_r|done].
Qed.

Lemma exec_events_prev_dom c w k :
  is_Some (events_prev (self (exec EVENTS EVENT_NAME DT_CTRL c w)) !! k)
  <-> is_Some (events_prev (self w) !! k).
Proof.
  destruct c; try (by rewrite exec_create_alerts_self).
  2:{ unfold exec. by rewrite clear_events_prev, fmap_is_Some. }
  all: simpl; unfold after;
    by rewrite ?add_Return, ?any_Return, ?add_from_msg_Return,
               ?to_msg_Return.
Qed.

Lemma run_snoc cs c w :
  run EVENTS EVENT_NAME DT_CTRL (cs ++ [c]) w
  = exec EVENTS EVENT_NAME DT_CTRL c (run EVENTS EVENT_NAME DT_CTRL cs w).
Proof. unfold run. by rewrite foldl_app. Qed.

Lemma run_events_prev_dom cs w k :
  is_Some (events_prev (self (run EVENTS EVENT_NAME DT_CTRL cs w)) !! k)
  <-> is_Some (events_prev (self w) !! k).
Proof.
  induction cs as [|c cs IH] using rev_ind; [done|].
  by rewrite run_snoc, exec_events_prev_dom.
Qed.

Lemma run_static_events cs w :
  static_events (self w) `prefix_of`
    static_events (self (run EVENTS EVENT_NAME DT_CTRL cs w)).
Proof.
  induction cs as [|c cs IH] using rev_ind; [done|].
  rewrite run_snoc. etrans; [apply IH|apply exec_static_events].
Qed.

Lemma run_store cs w :
  erase <$> heap w `prefix_of`
    erase <$> heap (run EVENTS EVENT_NAME DT_CTRL cs w).
Proof.
  induction cs as [|c cs IH] using rev_ind; [done|].
  rewrite run_snoc. etrans; [apply IH|apply exec_store].
Qed.

(** C1. [clear] returns; afterwards [events] equals [static_events], which
    is unchanged, and the counter of every key [k] of [events_prev] is its
    old value plus one if [k] occurs (any number of times) in the events
    that were active before the call, and zero otherwise. The keys are
    those of [EVENTS], all bound to zero by the constructor, and stay so
    whatever methods are called. *)
Theorem clear_rolls_counters :
  (forall w : world, exists w',
     clear w = Return tt w'
     /\ events (self w') = static_events (self w')
     /\ static_events (self w') = static_events (self w)
     /\ heap w' = heap w
     /\ forall k,
          events_prev (self w') !! k
          = (fun v => if bool_decide (k ∈ events (self w))
                      then v + 1 else 0)
              <$> events_prev (self w) !! k)
  /\ (forall k, events_prev (Events_init EVENTS) !! k
                = (fun _ => 0) <$> EVENTS !! k)
  /\ (forall cs h k,
        is_Some (events_prev
                   (self (run EVENTS EVENT_NAME DT_CTRL cs
                            (mkWorld (Events_init EVENTS) h))) !! k)
        <-> is_Some (EVENTS !! k)).
Proof.
  split; [|split].
  - intros w. eexists. split; [apply clear_Return|]. simpl.
    repeat split. intros k. rewrite map_lookup_imap.
    by destruct (events_prev (self w) !! k).
  - intros k. simpl. by rewrite lookup_fmap.
  - intros cs h k. rewrite run_events_prev_dom. simpl.
    by rewrite lookup_fmap, fmap_is_Some.
Qed.

(** *** [any] *)

Lemma spec_at_get e et :
  spec_at EVENTS e et = EVENTS_get EVENTS e !! et.
Proof.
  unfold spec_at, EVENTS_get. by destruct (EVENTS !! e).
Qed.

Lemma any_loop_true event_type es :
  any_loop EVENTS event_type es = true
  <-> exists e, e ∈ es /\ is_Some (spec_at EVENTS e event_type).
Proof.
  induction es as [|e es IH]; simpl.
  - split; [done|]. intros (e & He & _). by apply elem_of_nil in He.
  - case_bool_decide as Hd; rewrite elem_of_dom, <- spec_at_get in Hd.
    + split; [|done]. intros _. exists e. split; [left|done].
    + rewrite IH. split.
      * intros (e' & He' & Hs). exists e'. split; [by right|done].
      * intros (e' & He' & Hs). apply elem_of_cons in He' as [->|He'];
          [done|by exists e'].
Qed.

(** C6. [any(event_type)] returns, leaving [self] and the store as they
    were; it returns [True] exactly when some active event has an entry
    for [event_type] in [EVENTS]. Events that are no key of [EVENTS]
    count for nothing: when no active event is a key, the answer is
    [False]. *)
Theorem any_iff_registered event_type w :
  exists b,
    any EVENTS event_type w = Return b w
    /\ (b = true <->
        exists e types,
          e ∈ events (self w) /\ EVENTS !! e = Some types
          /\ is_Some (types !! event_type))
    /\ ((forall e, e ∈ events (self w) -> EVENTS !! e = None) ->
        b = false).
Proof.
  eexists. split; [apply any_Return|]. split.
  - rewrite any_loop_true. split.
    + intros (e & He & Hs). unfold spec_at in Hs.
      destruct (EVENTS !! e) as [types|] eqn:HE; [|by destruct Hs].
      by exists e, types.
    + intros (e & types & He & HE & Hs). exists e. split; [done|].
      unfold spec_at. by rewrite HE.
  - intros Hun. apply not_true_is_false. rewrite any_loop_true.
    intros (e & He & Hs). unfold spec_at in Hs.
    rewrite (Hun e He) in Hs. by destruct Hs.
Qed.

(** *** The wire messages *)

Lemma CarEvent_set_name ev et : name (CarEvent_set ev et) = name ev.
Proof. by destruct ev, et. Qed.

Lemma CarEvent_get_set ev et' et :
  CarEvent_get (CarEvent_set ev et') et
  = if decide (et = et') then true else CarEvent_get ev et.
Proof. by destruct ev, et', et. Qed.

Lemma CarEvent_foldl_name ev ets :
  name (foldl CarEvent_set ev ets) = name ev.
Proof.
  revert ev. induction ets as [|et ets IH]; intros ev; [done|].
  simpl. by rewrite IH, CarEvent_set_name.
Qed.

Lemma CarEvent_foldl_get ev ets et :
  CarEvent_get (foldl CarEvent_set ev ets) et = true
  <-> CarEvent_get ev et = true \/ et ∈ ets.
Proof.
  revert ev. induction ets as [|et' ets IH]; intros ev; simpl.
  - rewrite elem_of_nil. tauto.
  - rewrite IH, CarEvent_get_set, elem_of_cons.
    destruct (decide (et = et')); [tauto|]. tauto.
Qed.

Lemma CarEvent_of_name e : name (CarEvent_of EVENTS e) = e.
Proof. unfold CarEvent_of. by rewrite CarEvent_foldl_name. Qed.

Lemma CarEvent_of_get e et :
  CarEvent_get (CarEvent_of EVENTS e) et = true
  <-> is_Some (spec_at EVENTS e et).
Proof.
  unfold CarEvent_of. rewrite CarEvent_foldl_get, spec_at_get.
  rewrite list_elem_of_fmap. split.
  - intros [Hf|([et' spec] & -> & Hin)]; [by destruct et|].
    apply elem_of_map_to_list in Hin. by exists spec.
  - intros [spec Hs]. right. exists (et, spec). split; [done|].
    by apply elem_of_map_to_list.
Qed.

(** C4. [to_msg] returns one message per active event, in the order of
    [events]; each carries the event's name and has exactly the flags of
    the event types [EVENTS] has for that name (none for a name that is no
    key). [add_from_msg] of these messages on a new [Events()] gives the
    same [events], names that are no key of [EVENTS] included. *)
Theorem wire_round_trip w h :
  exists msg,
    to_msg EVENTS w = Return msg w
    /\ name <$> msg = events (self w)
    /\ (forall i ev e,
          msg !! i = Some ev -> events (self w) !! i = Some e ->
          name ev = e
          /\ (forall et, CarEvent_get ev et = true
                         <-> is_Some (spec_at EVENTS e et))
          /\ (EVENTS !! e = None ->
              forall et, CarEvent_get ev et = false))
    /\ exists w',
         add_from_msg msg (mkWorld (Events_init EVENTS) h) = Return tt w'
         /\ events (self w') = events (self w).
Proof.
  eexists. split; [apply to_msg_Return|].
  assert (name <$> (CarEvent_of EVENTS <$> events (self w))
          = events (self w)) as Hn.
  { rewrite <- list_fmap_compose. rewrite <- (list_fmap_id (events _)) at 2.
    apply list_fmap_ext. intros i e _. apply CarEvent_of_name. }
  split; [done|]. split.
  - intros i ev e Hi He. rewrite list_lookup_fmap, He in Hi.
    injection Hi as <-. split; [apply CarEvent_of_name|].
    split; [apply CarEvent_of_get|].
    intros HE et. apply not_true_is_false.
    rewrite CarEvent_of_get. unfold spec_at. rewrite HE. by intros [].
  - eexists. split; [apply add_from_msg_Return|]. simpl. by rewrite Hn.
Qed.

(** *** Static events *)

(** C10. No call takes anything away from [static_events]: the list after
    a call extends the list before. Hence, after [add(e, static=True)],
    whatever is called next, [e] is among [events] right after every
    later [clear]. *)
Theorem static_events_survive :
  (forall c w,
     static_events (self w) `prefix_of`
       static_events (self (exec EVENTS EVENT_NAME DT_CTRL c w)))
  /\ (forall w e cs,
        e ∈ events
              (self (exec EVENTS EVENT_NAME DT_CTRL call_clear
                       (run EVENTS EVENT_NAME DT_CTRL cs
                          (exec EVENTS EVENT_NAME DT_CTRL
                             (call_add e true) w))))).
Proof.
  split; [apply exec_static_events|]. intros w e cs.
  set (w1 := exec _ _ _ (call_add e true) w).
  assert (e ∈ static_events (self w1)) as He.
  { unfold w1. simpl. apply elem_of_app. right. left. }
  pose proof (run_static_events cs w1) as [k Hk].
  rewrite exec_clear. simpl. rewrite Hk. apply elem_of_app. by left.
Qed.

(** *** The cycle counters *)

Lemma adds_Return (adds : list (EventId * bool)) w :
  exists w',
    for_each adds (fun _ x => add x.1 x.2) tt w = Return tt w'
    /\ events (self w') = events (self w) ++ adds.*1
    /\ events_prev (self w') = events_prev (self w)
    /\ heap w' = heap w.
Proof.
  revert w. induction adds as [|[e b] adds IH]; intros w.
  - exists w. by rewrite app_nil_r.
  - simpl. erewrite bind_Return; [|apply add_Return].
    destruct (IH (mkWorld
      (mkEvents (events (self w) ++ [e])
         (if b then static_events (self w) ++ [e]
          else static_events (self w))
         (events_prev (self w))) (heap w)))
      as (w' & Hr & He & Hp & Hh).
    exists w'. simpl in *. by rewrite <- app_assoc in He.
Qed.

Lemma cycle_Return adds w :
  exists w',
    cycle adds w = Return tt w'
    /\ forall k,
         events_prev (self w') !! k
         = (fun v => if bool_decide (k ∈ events (self w) ++ adds.*1)
                     then v + 1 else 0)
             <$> events_prev (self w) !! k.
Proof.
  destruct (adds_Return adds w) as (w1 & Hr & He & Hp & Hh).
  eexists. split.
  - unfold cycle. erewrite bind_Return; [|apply Hr]. apply clear_Return.
  - intros k. simpl. rewrite map_lookup_imap, He, Hp.
    by destruct (events_prev (self w) !! k).
Qed.

Lemma cycles_count css w e c :
  events_prev (self w) !! e = Some c ->
  Forall (fun adds : list (EventId * bool) => e ∈ adds.*1) css ->
  exists w',
    cycles css w = Return tt w'
    /\ events_prev (self w') !! e = Some (c + Z.of_nat (length css)).
Proof.
  intros Hc Hcss. revert w c Hc.
  induction Hcss as [|adds css Hadds _ IH]; intros w c Hc.
  - exists w. split; [done|]. simpl. by rewrite Z.add_0_r.
  - destruct (cycle_Return adds w) as (w1 & Hr & Hp).
    destruct (IH w1 (c + 1)) as (w' & Hr' & Hp').
    { rewrite Hp, Hc. simpl. rewrite bool_decide_true; [done|].
      apply elem_of_app. by right. }
    exists w'. split.
    + unfold cycles. simpl. erewrite bind_Return; [|apply Hr]. apply Hr'.
    + rewrite Hp'. f_equal. simpl length. lia.
Qed.

(** C5. Let the counter of [e] be [c] (zero on a new [Events()] for every
    key of [EVENTS], and zero after a cycle without [e]). After as many
    cycles as [css] has, each adding [e] and ending with [clear], the
    counter is [c] plus their number; and once [e] is added in the next
    cycle, [self.events_prev[e] + 1] in [create_alerts] is one more. With
    [c = 0] that is [n - 1] going into the [n]-th cycle and [n] inside
    [create_alerts]. A [clear] with [e] not among [events] leaves the
    counter at zero. *)
Theorem persistence_counting w e c css :
  events_prev (self w) !! e = Some c ->
  Forall (fun adds : list (EventId * bool) => e ∈ adds.*1) css ->
  (exists w',
     cycles css w = Return tt w'
     /\ events_prev (self w') !! e = Some (c + Z.of_nat (length css))
     /\ forall adds, exists w'',
          for_each adds (fun _ x => add x.1 x.2) tt w' = Return tt w''
          /\ elapsed_cycles e w'' = Return (c + Z.of_nat (length css) + 1) w'')
  /\ (e ∉ events (self w) ->
      exists w',
        clear w = Return tt w' /\ events_prev (self w') !! e = Some 0)
  /\ (forall h k, is_Some (EVENTS !! k) ->
        events_prev (self (mkWorld (Events_init EVENTS) h)) !! k
        = Some 0).
Proof.
  intros Hc Hcss. split; [|split].
  - destruct (cycles_count css w e c Hc Hcss) as (w' & Hr & Hp).
    exists w'. split; [done|]. split; [done|]. intros adds.
    destruct (adds_Return adds w') as (w'' & Hr' & _ & Hp' & _).
    exists w''. split; [done|].
    unfold elapsed_cycles. erewrite bind_Return; [|done].
    unfold getitem. by rewrite Hp', Hp.
  - intros Hne. eexists. split; [apply clear_Return|]. simpl.
    rewrite map_lookup_imap, Hc. simpl. by rewrite bool_decide_false.
  - intros h k [types Hk]. simpl. by rewrite lookup_fmap, Hk.
Qed.

(** *** Logs with one event *)

Lemma clear_log_with e n static h :
  after clear (log_with EVENTS [e] static e n h)
  = log_with EVENTS static static e (n + 1) h.
Proof.
  unfold after. rewrite clear_Return.
  unfold log_with. simpl. f_equal. f_equal. apply map_eq. intros k.
  rewrite map_lookup_imap. destruct (decide (k = e)) as [->|Hne].
  - rewrite !lookup_insert_eq. simpl. rewrite bool_decide_true; [done|].
    left.
  - rewrite !lookup_insert_ne by done. rewrite lookup_fmap.
    destruct (EVENTS !! k); simpl; [|done].
    rewrite bool_decide_false; [done|].
    by intros ->%list_elem_of_singleton.
Qed.

Lemma log_with_init e h :
  is_Some (EVENTS !! e) ->
  mkWorld (Events_init EVENTS) h = log_with EVENTS [] [] e 0 h.
Proof.
  intros [types He]. unfold log_with. f_equal. unfold Events_init at 1.
  f_equal. symmetry. apply insert_id. simpl. by rewrite lookup_fmap, He.
Qed.

(** A static event [e], [n] cycles after it was added. *)
Lemma kept_reached e (n : N) h :
  is_Some (EVENTS !! e) ->
  N.iter n (after clear)
    (after (add e true) (mkWorld (Events_init EVENTS) h))
  = log_with EVENTS [e] [e] e (Z.of_N n) h.
Proof.
  intros He. induction n as [|n IH] using N.peano_ind.
  - by rewrite (log_with_init e h He).
  - rewrite N.iter_succ, IH, clear_log_with. f_equal. lia.
Qed.

(** An event [e] in a cycle it is raised in, after [n] cycles it was
    raised in too. *)
Lemma raised_reached e (n : N) h :
  is_Some (EVENTS !! e) ->
  after (add e false)
    (N.iter n (after (cycle [(e, false)])) (mkWorld (Events_init EVENTS) h))
  = log_with EVENTS [e] [] e (Z.of_N n) h.
Proof.
  intros He. induction n as [|n IH] using N.peano_ind.
  - by rewrite (log_with_init e h He).
  - rewrite N.iter_succ.
    change (after (cycle [(e, false)]) ?w)
      with (after clear (after (add e false) w)).
    rewrite IH, clear_log_with. unfold after. rewrite add_Return.
    unfold log_with. simpl. do 3 f_equal. lia.
Qed.



(** *** One match of [create_alerts] *)

Lemma stamp_erase e et a b :
  erase a = erase b ->
  stamp EVENT_NAME e et a = stamp EVENT_NAME e et b.
Proof.
  destruct a, b. unfold erase, stamp, set_event_type, set_alert_type.
  simpl. intros H. injection H. intros. by subst.
Qed.

Ltac unfold_M :=
  unfold create_alert, elapsed_cycles, getitem, float_of_int, deref,
    setattr, alloc, raise, get_self, put_self, mbind, M_bind, mret, M_ret.

Lemma create_alert_static callback_args e ret et w types l a :
  EVENTS !! e = Some types ->
  types !! et = Some (Static l) ->
  heap w !! l = Some a ->
  create_alert EVENTS EVENT_NAME DT_CTRL callback_args e ret et w
  = match events_prev (self w) !! e with
    | None => Raised KeyError w
    | Some c =>
      if PrimFloat.is_infinity (Z2float (c + 1)) then Raised OverflowError w
      else if passes DT_CTRL (self w) e a
      then match EVENT_NAME !! e with
           | Some _ =>
             Return (ret ++ [l])
               (mkWorld (self w) (<[l := stamp EVENT_NAME e et a]> (heap w)))
           | None => Raised KeyError w
           end
      else Return ret w
    end.
Proof.
  intros HE Ht Hl. unfold passes, stamp, alert_tag. unfold_M.
  rewrite HE, Ht. simpl.
  destruct (events_prev (self w) !! e) as [c|]; simpl; [|done].
  destruct (PrimFloat.is_infinity _); simpl; [done|]. rewrite Hl. simpl.
  destruct (PrimFloat.leb _ _); [|done].
  destruct (EVENT_NAME !! e) as [nm|]; simpl; [|done].
  rewrite Hl. simpl. rewrite list_lookup_insert_eq by by eapply lookup_lt_Some.
  by rewrite list_insert_insert_eq.
Qed.

Lemma create_alert_callback args e ret et w types f :
  EVENTS !! e = Some types ->
  types !! et = Some (Callback f) ->
  let w1 := mkWorld (self w) (heap w ++ [f args]) in
  create_alert EVENTS EVENT_NAME DT_CTRL (Some args) e ret et w
  = match events_prev (self w) !! e with
    | None => Raised KeyError w1
    | Some c =>
      if PrimFloat.is_infinity (Z2float (c + 1)) then Raised OverflowError w1
      else if passes DT_CTRL (self w) e (f args)
      then match EVENT_NAME !! e with
           | Some _ =>
             Return (ret ++ [length (heap w)])
               (mkWorld (self w)
                        (heap w ++ [stamp EVENT_NAME e et (f args)]))
           | None => Raised KeyError w1
           end
      else Return ret w1
    end.
Proof.
  intros HE Ht. unfold passes, stamp, alert_tag. unfold_M.
  rewrite HE, Ht. simpl.
  destruct (events_prev (self w) !! e) as [c|]; simpl; [|done].
  destruct (PrimFloat.is_infinity _); simpl; [done|].
  rewrite list_lookup_middle by done. simpl.
  destruct (PrimFloat.leb _ _); [|done].
  destruct (EVENT_NAME !! e) as [nm|]; simpl; [|done].
  rewrite list_lookup_middle by done. simpl.
  rewrite list_lookup_insert_eq by (rewrite length_app; simpl; lia).
  rewrite list_insert_insert_eq.
  rewrite insert_app_r_alt, Nat.sub_diag by done. done.
Qed.

Lemma create_alert_no_args e ret et w types f :
  EVENTS !! e = Some types ->
  types !! et = Some (Callback f) ->
  create_alert EVENTS EVENT_NAME DT_CTRL None e ret et w
  = Raised TypeError w.
Proof. intros HE Ht. unfold_M. by rewrite HE, Ht. Qed.

(** *** The registry's instances *)

Lemma spec_at_Some e et spec :
  spec_at EVENTS e et = Some spec
  <-> exists types, EVENTS !! e = Some types /\ types !! et = Some spec.
Proof. unfold spec_at. apply bind_Some. Qed.

Lemma store_ok_lt h e et l :
  store_ok EVENTS h -> spec_at EVENTS e et = Some (Static l) ->
  (l < length h)%nat.
Proof.
  intros Hok (types & HE & Ht)%spec_at_Some.
  specialize (Hok e types HE et (Static l) Ht). simpl in Hok.
  apply Hok.
Qed.

Lemma store_ok_inj h e1 et1 e2 et2 l :
  store_ok EVENTS h ->
  spec_at EVENTS e1 et1 = Some (Static l) ->
  spec_at EVENTS e2 et2 = Some (Static l) ->
  e1 = e2 /\ et1 = et2.
Proof.
  intros Hok (types1 & HE1 & Ht1)%spec_at_Some
             (types2 & HE2 & Ht2)%spec_at_Some.
  specialize (Hok e1 types1 HE1 et1 (Static l) Ht1). simpl in Hok.
  destruct Hok as [_ Hok].
  by apply (Hok e2 types2 HE2 et2 (Static l) Ht2).
Qed.

(** *** The invariant *)

Lemma loop_inv_start w : loop_inv EVENTS EVENT_NAME w [] [] w.
Proof.
  split; [apply frame_refl|]. split; [done|].
  intros l Hl. by apply elem_of_nil in Hl.
Qed.

Lemma loop_inv_lt w0 ret exp w l :
  loop_inv EVENTS EVENT_NAME w0 ret exp w -> l ∈ ret ->
  (l < length (heap w))%nat.
Proof.
  intros (_ & Hret & _) Hl.
  apply list_elem_of_lookup in Hl as [i Hi].
  apply (f_equal (fun x => x !! i)) in Hret.
  rewrite !list_lookup_fmap, Hi in Hret. simpl in Hret.
  destruct (exp !! i); [|done]. simpl in Hret.
  eapply lookup_lt_Some. by injection Hret.
Qed.

Lemma loop_inv_length w0 ret exp w :
  loop_inv EVENTS EVENT_NAME w0 ret exp w ->
  (length (heap w0) <= length (heap w))%nat.
Proof.
  intros ((_ & Hpre) & _). apply prefix_length in Hpre.
  by rewrite !length_fmap in Hpre.
Qed.

(** The store changes, but not at the references of [ret]. *)
Lemma loop_inv_extend w0 ret exp w h' :
  loop_inv EVENTS EVENT_NAME w0 ret exp w ->
  erase <$> heap w `prefix_of` erase <$> h' ->
  (forall l, l ∈ ret -> h' !! l = heap w !! l) ->
  loop_inv EVENTS EVENT_NAME w0 ret exp (mkWorld (self w) h').
Proof.
  intros ((Hs & Hpre) & Hret & HJ) Hpre' Hsame. split; [|split].
  - split; [done|]. simpl. by etrans.
  - simpl. rewrite <- Hret. apply list_fmap_ext.
    intros i l Hi. apply Hsame. by eapply list_elem_of_lookup_2.
  - intros l Hl Hlt. destruct (HJ l Hl Hlt) as (e & et & a & Hsp & Ha).
    exists e, et, a. split; [done|]. simpl. by rewrite Hsame.
Qed.

(** One more alert is appended to [ret]. *)
Lemma loop_inv_snoc w0 ret exp w l x :
  loop_inv EVENTS EVENT_NAME w0 ret exp w ->
  heap w !! l = Some x ->
  ((l < length (heap w0))%nat ->
   exists e et a,
     spec_at EVENTS e et = Some (Static l)
     /\ x = stamp EVENT_NAME e et a) ->
  loop_inv EVENTS EVENT_NAME w0 (ret ++ [l]) (exp ++ [x]) w.
Proof.
  intros (Hf & Hret & HJ) Hl Hx. split; [done|]. split.
  - rewrite !fmap_app, Hret. simpl. by rewrite Hl.
  - intros l' [Hl'| ->%list_elem_of_singleton]%elem_of_app Hlt.
    + by apply HJ.
    + destruct (Hx Hlt) as (e & et & a & Hsp & ->). by exists e, et, a.
Qed.

Lemma emitted_static w callback_args e et l a :
  spec_at EVENTS e et = Some (Static l) -> heap w !! l = Some a ->
  emitted EVENTS EVENT_NAME DT_CTRL w callback_args e et
  = if passes DT_CTRL (self w) e a then [stamp EVENT_NAME e et a] else [].
Proof. intros Hsp Hl. unfold emitted. rewrite Hsp. simpl. by rewrite Hl. Qed.

Lemma emitted_callback w args e et f :
  spec_at EVENTS e et = Some (Callback f) ->
  emitted EVENTS EVENT_NAME DT_CTRL w (Some args) e et
  = if passes DT_CTRL (self w) e (f args)
    then [stamp EVENT_NAME e et (f args)] else [].
Proof. intros Hsp. unfold emitted. by rewrite Hsp. Qed.

Lemma emitted_None w callback_args e et :
  spec_at EVENTS e et = None ->
  emitted EVENTS EVENT_NAME DT_CTRL w callback_args e et = [].
Proof. intros Hsp. unfold emitted. by rewrite Hsp. Qed.

Lemma passes_frame w0 w e a0 a :
  self w = self w0 -> erase a = erase a0 ->
  passes DT_CTRL (self w) e a = passes DT_CTRL (self w0) e a0.
Proof.
  intros -> Ha. unfold passes. by rewrite (erase_creation_delay a a0).
Qed.

Lemma for_each_cons {X A} (x : X) xs (body : A -> X -> M A) acc w :
  for_each (x :: xs) body acc w
  = match body acc x w with
    | Return acc' w' => for_each xs body acc' w'
    | Raised e w' => Raised e w'
    | Wrong => Wrong
    end.
Proof. done. Qed.

(** The body of [if et in types:] runs to its end exactly when the entry is
    ready; it then keeps the invariant and appends what the entry for [e]
    and [et] is expected to contribute. *)
Lemma create_alert_step w0 ret exp w callback_args e et types spec :
  store_ok EVENTS (heap w0) ->
  loop_inv EVENTS EVENT_NAME w0 ret exp w ->
  EVENTS !! e = Some types ->
  types !! et = Some spec ->
  match create_alert EVENTS EVENT_NAME DT_CTRL callback_args e ret et w with
  | Return ret' w' =>
    entry_ready EVENTS EVENT_NAME DT_CTRL w0 callback_args e et = true
    /\ loop_inv EVENTS EVENT_NAME w0 ret'
         (exp ++ emitted EVENTS EVENT_NAME DT_CTRL w0 callback_args e et) w'
  | Raised _ _ =>
    entry_ready EVENTS EVENT_NAME DT_CTRL w0 callback_args e et = false
  | Wrong => False
  end.
Proof.
  intros Hok Hinv HE Ht.
  assert (spec_at EVENTS e et = Some spec) as Hsp
    by (apply spec_at_Some; eauto).
  pose proof Hinv as ((Hs & Hpre) & Hret & HJ).
  unfold entry_ready. rewrite Hsp.
  destruct spec as [l|f].
  - (* an instance of the table *)
    pose proof (store_ok_lt _ _ _ _ Hok Hsp) as Hlt.
    destruct (lookup_lt_is_Some_2 _ _ Hlt) as [a0 Ha0].
    assert (exists a, heap w !! l = Some a /\ erase a = erase a0)
      as (a & Ha & Hera).
    { assert ((erase <$> heap w0) !! l = Some (erase a0)) as H0
        by by rewrite list_lookup_fmap, Ha0.
      eapply prefix_lookup_Some in H0; [|apply Hpre].
      rewrite list_lookup_fmap in H0.
      destruct (heap w !! l) as [a|]; [|done].
      exists a. split; [done|]. by apply (inj Some). }
    rewrite (create_alert_static _ _ _ _ _ _ _ _ HE Ht Ha).
    rewrite (emitted_static _ _ _ _ _ _ Hsp Ha0).
    rewrite (passes_frame w0 w e a0 a Hs Hera), Hs. simpl. rewrite Ha0.
    destruct (events_prev (self w0) !! e) as [c|]; [|done].
    destruct (PrimFloat.is_infinity _); simpl; [done|].
    destruct (passes DT_CTRL (self w0) e a0).
    2:{ split; [done|]. by rewrite app_nil_r. }
    destruct (EVENT_NAME !! e) as [nm|] eqn:Hn.
    2:{ apply bool_decide_eq_false_2. by intros []. }
    split; [by apply bool_decide_eq_true_2|].
    rewrite <- (stamp_erase e et a a0 Hera).
    apply loop_inv_snoc.
    + rewrite <- Hs. apply loop_inv_extend; [done|..].
      * by rewrite (fmap_erase_insert _ _ a).
      * intros l' Hl'. destruct (decide (l' = l)) as [->|Hne];
          [|by apply list_lookup_insert_ne].
        destruct (HJ l Hl' Hlt) as (e' & et' & a' & Hsp' & Ha').
        destruct (store_ok_inj _ _ _ _ _ _ Hok Hsp Hsp') as [<- <-].
        rewrite Ha' in Ha. injection Ha as <-.
        by rewrite list_insert_id.
    + simpl. apply list_lookup_insert_eq. by eapply lookup_lt_Some.
    + intros _. by exists e, et, a.
  - (* a callback *)
    destruct callback_args as [args|]; simpl.
    2:{ rewrite (create_alert_no_args _ _ _ _ _ _ HE Ht).
        by destruct (events_prev (self w0) !! e). }
    rewrite (create_alert_callback _ _ _ _ _ _ _ HE Ht).
    rewrite (emitted_callback _ _ _ _ _ Hsp). rewrite Hs.
    assert (forall x l', l' ∈ ret ->
              (heap w ++ [x]) !! l' = heap w !! l') as Hold.
    { intros x l' Hl'. apply lookup_app_l. by eapply loop_inv_lt. }
    destruct (events_prev (self w0) !! e) as [c|]; [|done].
    destruct (PrimFloat.is_infinity _); simpl; [done|].
    destruct (passes DT_CTRL (self w0) e (f args)).
    + destruct (EVENT_NAME !! e) as [nm|] eqn:Hn.
      2:{ apply bool_decide_eq_false_2. by intros []. }
      split; [by apply bool_decide_eq_true_2|].
      apply loop_inv_snoc.
      * rewrite <- Hs. apply loop_inv_extend; [done| |apply Hold].
        rewrite fmap_app. by apply prefix_app_r.
      * simpl. by apply list_lookup_middle.
      * intros Hlt. apply loop_inv_length in Hinv. lia.
    + split; [done|]. rewrite app_nil_r.
      rewrite <- Hs. apply loop_inv_extend; [done| |apply Hold].
      rewrite fmap_app. by apply prefix_app_r.
Qed.

(** *** The two loops *)

Lemma create_alerts_inner w0 callback_args e types event_types :
  store_ok EVENTS (heap w0) ->
  EVENTS !! e = Some types ->
  forall ret exp w,
    loop_inv EVENTS EVENT_NAME w0 ret exp w ->
    match for_each event_types (fun ret et =>
            if bool_decide (et ∈ dom types)
            then create_alert EVENTS EVENT_NAME DT_CTRL callback_args e ret et
            else mret ret) ret w with
    | Return ret' w' =>
      forallb (entry_ready EVENTS EVENT_NAME DT_CTRL w0 callback_args e)
              event_types = true
      /\ loop_inv EVENTS EVENT_NAME w0 ret'
           (exp ++ (event_types ≫= fun et =>
                      emitted EVENTS EVENT_NAME DT_CTRL w0 callback_args
                              e et))
           w'
    | Raised _ _ =>
      forallb (entry_ready EVENTS EVENT_NAME DT_CTRL w0 callback_args e)
              event_types = false
    | Wrong => False
    end.
Proof.
  intros Hok HE.
  induction event_types as [|et ets IH]; intros ret exp w Hinv.
  - simpl. split; [done|]. by rewrite app_nil_r.
  - rewrite for_each_cons. cbn [forallb mbind list_bind]. rewrite app_assoc.
    case_bool_decide as Hd; rewrite elem_of_dom in Hd.
    + destruct Hd as [spec Ht].
      pose proof (create_alert_step w0 ret exp w callback_args e et types
                    spec Hok Hinv HE Ht) as Hstep.
      destruct (create_alert _ _ _ _ _ _ _ w) as [ret1 w1| |]; [|by rewrite Hstep|done].
      destruct Hstep as [-> Hinv1]. apply (IH _ _ _ Hinv1).
    + assert (spec_at EVENTS e et = None) as Hsp.
      { unfold spec_at. rewrite HE. simpl. by apply eq_None_not_Some. }
      rewrite (emitted_None _ _ _ _ Hsp), app_nil_r.
      unfold entry_ready at 1 3. rewrite Hsp. apply (IH _ _ _ Hinv).
Qed.

Lemma create_alerts_outer w0 event_types callback_args es :
  store_ok EVENTS (heap w0) ->
  forall ret exp w,
    loop_inv EVENTS EVENT_NAME w0 ret exp w ->
    match for_each es (fun ret e =>
            types ← getitem EVENTS e;
            for_each event_types (fun ret et =>
              if bool_decide (et ∈ dom types)
              then create_alert EVENTS EVENT_NAME DT_CTRL callback_args
                                e ret et
              else mret ret) ret) ret w with
    | Return ret' w' =>
      forallb (fun e =>
        bool_decide (is_Some (EVENTS !! e))
        && forallb (entry_ready EVENTS EVENT_NAME DT_CTRL w0 callback_args e)
                   event_types) es = true
      /\ loop_inv EVENTS EVENT_NAME w0 ret'
           (exp ++ (es ≫= fun e => event_types ≫= fun et =>
                      emitted EVENTS EVENT_NAME DT_CTRL w0 callback_args
                              e et))
           w'
    | Raised _ _ =>
      forallb (fun e =>
        bool_decide (is_Some (EVENTS !! e))
        && forallb (entry_ready EVENTS EVENT_NAME DT_CTRL w0 callback_args e)
                   event_types) es = false
    | Wrong => False
    end.
Proof.
  intros Hok. induction es as [|e es IH]; intros ret exp w Hinv.
  - simpl. split; [done|]. by rewrite app_nil_r.
  - rewrite for_each_cons. cbn [forallb mbind list_bind]. rewrite app_assoc.
    unfold mbind at 1, M_bind at 1, getitem.
    destruct (EVENTS !! e) as [types|] eqn:HE.
    2:{ done. }
    change (bool_decide (is_Some (Some types))) with true.
    cbn [andb mret M_ret].
    pose proof (create_alerts_inner w0 callback_args e types event_types
                  Hok HE _ _ _ Hinv) as Hin.
    destruct (for_each event_types _ ret w) as [ret1 w1| |];
      [|by rewrite Hin|done].
    destruct Hin as [-> Hinv1]. apply (IH _ _ _ Hinv1).
Qed.

(** [create_alerts] returns exactly when the log is ready, and what it
    returns refers, in order, to the alerts expected of each active event
    and each requested type. *)
Lemma create_alerts_spec w event_types callback_args :
  store_ok EVENTS (heap w) ->
  match create_alerts EVENTS EVENT_NAME DT_CTRL event_types callback_args w
  with
  | Return ret w' =>
    ready EVENTS EVENT_NAME DT_CTRL event_types callback_args w = true
    /\ loop_inv EVENTS EVENT_NAME w ret
         (events (self w) ≫= fun e => event_types ≫= fun et =>
            emitted EVENTS EVENT_NAME DT_CTRL w callback_args e et)
         w'
  | Raised _ _ =>
    ready EVENTS EVENT_NAME DT_CTRL event_types callback_args w = false
  | Wrong => False
  end.
Proof.
  intros Hok.
  apply (create_alerts_outer w event_types callback_args (events (self w))
           Hok [] [] w (loop_inv_start w)).
Qed.

Lemma create_alerts_Return w event_types callback_args :
  store_ok EVENTS (heap w) ->
  ready EVENTS EVENT_NAME DT_CTRL event_types callback_args w = true
  <-> exists ret w',
        create_alerts EVENTS EVENT_NAME DT_CTRL event_types callback_args w
        = Return ret w'.
Proof.
  intros Hok.
  pose proof (create_alerts_spec w event_types callback_args Hok) as H.
  destruct (create_alerts _ _ _ _ _ w) as [ret w'|ex w'|]; [| |done].
  - split; [by eauto|]. intros _. apply H.
  - rewrite H. split; [done|]. by intros (? & ? & ?).
Qed.

Lemma emitted_inv w callback_args e et a :
  a ∈ emitted EVENTS EVENT_NAME DT_CTRL w callback_args e et ->
  exists spec a0,
    spec_at EVENTS e et = Some spec
    /\ resolve (heap w) callback_args spec = Some a0
    /\ passes DT_CTRL (self w) e a0 = true
    /\ a = stamp EVENT_NAME e et a0.
Proof.
  unfold emitted. destruct (spec_at EVENTS e et) as [spec|] eqn:Hsp; simpl.
  2:{ by intros ?%elem_of_nil. }
  destruct (resolve (heap w) callback_args spec) as [a0|] eqn:Hres.
  2:{ by intros ?%elem_of_nil. }
  destruct (passes DT_CTRL (self w) e a0) eqn:Hp.
  2:{ by intros ?%elem_of_nil. }
  intros ->%list_elem_of_singleton. by exists spec, a0.
Qed.

(** C7. [create_alerts] returns exactly when the log is [ready] (every
    active event is a key of [EVENTS], and so on). What it returns refers
    to alerts that are, in this order: for each active event in the order
    of [events] (an event listed twice is gone through twice), for each
    requested type in the order of [event_types], the alert of that entry
    if there is one and it passes the delay test. The priorities play no
    part in the order. Each alert is the entry's alert with [alert_type]
    set to [EVENT_NAME[e] + "/" + et] and [event_type] to [et], and
    nothing else changed. *)
Theorem create_alerts_in_order w event_types callback_args :
  store_ok EVENTS (heap w) ->
  (ready EVENTS EVENT_NAME DT_CTRL event_types callback_args w = true
   <-> exists ret w',
         create_alerts EVENTS EVENT_NAME DT_CTRL event_types callback_args w
         = Return ret w')
  /\ forall ret w',
       create_alerts EVENTS EVENT_NAME DT_CTRL event_types callback_args w
       = Return ret w' ->
       self w' = self w
       /\ (fun l => heap w' !! l) <$> ret
          = Some <$> (events (self w) ≫= fun e => event_types ≫= fun et =>
                        emitted EVENTS EVENT_NAME DT_CTRL w callback_args
                                e et)
       /\ forall e et a,
            a ∈ emitted EVENTS EVENT_NAME DT_CTRL w callback_args e et ->
            emitted EVENTS EVENT_NAME DT_CTRL w callback_args e et = [a]
            /\ (forall nm, EVENT_NAME !! e = Some nm ->
                alert_type a = nm +:+ "/" +:+ ET_str et)
            /\ event_type a = Some et
            /\ exists spec a0,
                 spec_at EVENTS e et = Some spec
                 /\ resolve (heap w) callback_args spec = Some a0
                 /\ erase a = erase a0.
Proof.
  intros Hok. split; [by apply create_alerts_Return|]. intros ret w' Hr.
  pose proof (create_alerts_spec w event_types callback_args Hok) as H.
  rewrite Hr in H. destruct H as (_ & (Hs & _) & Hret & _).
  split; [done|]. split; [done|]. intros e et a Ha.
  apply emitted_inv in Ha as (spec & a0 & Hsp & Hres & Hp & ->).
  repeat split.
  - unfold emitted. rewrite Hsp. simpl. by rewrite Hres, Hp.
  - intros nm Hn. simpl. unfold alert_tag. by rewrite Hn.
  - by exists spec, a0.
Qed.

(** An active event that is no key of [EVENTS] makes [create_alerts]
    raise. *)
Lemma create_alerts_unknown_event w event_types callback_args e :
  store_ok EVENTS (heap w) ->
  e ∈ events (self w) -> EVENTS !! e = None ->
  exists ex w',
    create_alerts EVENTS EVENT_NAME DT_CTRL event_types callback_args w
    = Raised ex w'.
Proof.
  intros Hok He HE.
  pose proof (create_alerts_spec w event_types callback_args Hok) as H.
  destruct (create_alerts _ _ _ _ _ w) as [ret w'|ex w'|]; [|by eauto|done].
  destruct H as [Hready _]. unfold ready in Hready.
  rewrite forallb_forall in Hready.
  apply list_elem_of_In in He. specialize (Hready e He).
  rewrite HE in Hready. done.
Qed.

(** C2. When the log is [ready], [create_alerts] returns; and whenever it
    returns, the result refers to the alerts the active events contribute,
    where the entry for event [e] and type [et], resolved to an alert [a],
    contributes [a] exactly when
    [DT_CTRL * (self.events_prev[e] + 1) >= a.creation_delay]: nothing when
    the product is smaller, the alert when the two are equal. With [e] the
    only active event and [et] the only requested type, the result is
    non-empty exactly then. *)
Theorem creation_delay_gate w event_types callback_args :
  store_ok EVENTS (heap w) ->
  (ready EVENTS EVENT_NAME DT_CTRL event_types callback_args w = true ->
   exists ret w',
     create_alerts EVENTS EVENT_NAME DT_CTRL event_types callback_args w
     = Return ret w')
  /\ forall ret w',
       create_alerts EVENTS EVENT_NAME DT_CTRL event_types callback_args w
       = Return ret w' ->
       (fun l => heap w' !! l) <$> ret
       = Some <$> (events (self w) ≫= fun e => event_types ≫= fun et =>
                     emitted EVENTS EVENT_NAME DT_CTRL w callback_args e et)
       /\ forall e et spec a c,
            spec_at EVENTS e et = Some spec ->
            resolve (heap w) callback_args spec = Some a ->
            events_prev (self w) !! e = Some c ->
            let elapsed := (DT_CTRL * Z2float (c + 1))%float in
            (PrimFloat.leb (creation_delay a) elapsed = true ->
             emitted EVENTS EVENT_NAME DT_CTRL w callback_args e et
             = [stamp EVENT_NAME e et a])
            /\ (PrimFloat.leb (creation_delay a) elapsed = false ->
                emitted EVENTS EVENT_NAME DT_CTRL w callback_args e et = [])
            /\ (PrimFloat.ltb elapsed (creation_delay a) = true ->
                emitted EVENTS EVENT_NAME DT_CTRL w callback_args e et = [])
            /\ (PrimFloat.eqb elapsed (creation_delay a) = true ->
                emitted EVENTS EVENT_NAME DT_CTRL w callback_args e et
                = [stamp EVENT_NAME e et a])
            /\ (events (self w) = [e] -> event_types = [et] ->
                (ret <> [] <->
                 PrimFloat.leb (creation_delay a) elapsed = true)).
Proof.
  intros Hok. split; [by apply create_alerts_Return|]. intros ret w' Hr.
  pose proof (create_alerts_spec w event_types callback_args Hok) as H.
  rewrite Hr in H. destruct H as (_ & _ & Hret & _).
  split; [done|].
  intros e et spec a c Hsp Hres Hc elapsed.
  assert (emitted EVENTS EVENT_NAME DT_CTRL w callback_args e et
          = if PrimFloat.leb (creation_delay a) elapsed
            then [stamp EVENT_NAME e et a] else []) as Hem.
  { unfold emitted, passes. rewrite Hsp. simpl. by rewrite Hres, Hc. }
  split; [|split; [|split; [|split]]].
  - intros Hle. by rewrite Hem, Hle.
  - intros Hle. by rewrite Hem, Hle.
  - intros Hlt. by rewrite Hem, (float_ltb_not_geb _ _ Hlt).
  - intros Heq. rewrite Hem, (float_eqb_geb _ _ Heq). done.
  - intros He Het. rewrite He, Het in Hret. simpl in Hret.
    rewrite !app_nil_r, Hem in Hret.
    destruct (PrimFloat.leb (creation_delay a) elapsed).
    + split; [done|]. intros _ ->. discriminate Hret.
    + split; [|done]. intros Hne. by destruct ret.
Qed.

End Facts.

(** ** The excerpt of the table *)

(** A witness of C5: [gasPressed] raised in two consecutive cycles of a new
    log. *)
Lemma persistence_counting_witness :
  (exists w',
     cycles [[(Excerpt.gasPressed, false)];
             [(Excerpt.debugAlert, false); (Excerpt.gasPressed, false)]]
            Excerpt.world0 = Return tt w'
     /\ events_prev (self w') !! Excerpt.gasPressed = Some (0 + Z.of_nat 2)
     /\ forall adds, exists w'',
          for_each adds (fun _ x => add x.1 x.2) tt w' = Return tt w''
          /\ elapsed_cycles Excerpt.gasPressed w''
             = Return (0 + Z.of_nat 2 + 1) w'')
  /\ (Excerpt.gasPressed ∉ events (self Excerpt.world0) ->
      exists w',
        clear Excerpt.world0 = Return tt w'
        /\ events_prev (self w') !! Excerpt.gasPressed = Some 0)
  /\ (forall h k, is_Some (Excerpt.EVENTS !! k) ->
        events_prev (self (mkWorld (Events_init Excerpt.EVENTS) h)) !! k
        = Some 0).
Proof.
  apply (persistence_counting Excerpt.EVENTS Excerpt.world0
           Excerpt.gasPressed 0).
  - vm_compute. reflexivity.
  - repeat constructor; apply bool_decide_unpack; vm_compute; exact I.
Defined.

(** C8, as stated, fails: [create_alerts] assigns [alert_type] and
    [event_type] on the very instance the table holds for
    [debugAlert]/[PERMANENT]. *)
Lemma create_alerts_stamps_registry_alert :
  ~ registry_alerts_immutable Excerpt.EVENTS Excerpt.EVENT_NAME
      Excerpt.DT_CTRL.
Proof.
  intros H.
  specialize (H (call_create_alerts [PERMANENT] None)
                (after (add Excerpt.debugAlert false) Excerpt.world0)
                Excerpt.debugAlert PERMANENT 0%nat eq_refl).
  apply (f_equal (fmap alert_type)) in H. vm_compute in H. discriminate H.
Qed.

(** C3, where the code departs from it: an event whose name is no key of
    [EVENTS], here one received through [add_from_msg], makes
    [create_alerts] raise [KeyError], while [any] and [to_msg], which read
    the table through [EVENTS.get(e, {})], return on the same log. *)
Lemma create_alerts_unknown_event_raises :
  let w := after (add_from_msg [CarEvent_new 9999%N]) Excerpt.world0 in
  Excerpt.EVENTS !! 9999%N = None
  /\ events (self w) = [9999%N]
  /\ create_alerts Excerpt.EVENTS Excerpt.EVENT_NAME Excerpt.DT_CTRL
       [WARNING] None w = Raised KeyError w
  /\ create_alerts Excerpt.EVENTS Excerpt.EVENT_NAME Excerpt.DT_CTRL
       [] None w = Raised KeyError w
  /\ any Excerpt.EVENTS WARNING w = Return false w
  /\ to_msg Excerpt.EVENTS w = Return [CarEvent_new 9999%N] w.
Proof. vm_compute. repeat split. Qed.


(** [world1] has [plannerError], [debugAlert], [plannerError] active: asked
    for [NO_ENTRY], [IMMEDIATE_DISABLE] and [PERMANENT], [create_alerts]
    returns the instances 6, 5, 0, 6, 5 of the table. *)
Example create_alerts_world1 :
  match create_alerts Excerpt.EVENTS Excerpt.EVENT_NAME Excerpt.DT_CTRL
          [NO_ENTRY; IMMEDIATE_DISABLE; PERMANENT] None Excerpt.world1 with
  | Return ret w' =>
    ready Excerpt.EVENTS Excerpt.EVENT_NAME Excerpt.DT_CTRL
      [NO_ENTRY; IMMEDIATE_DISABLE; PERMANENT] None Excerpt.world1 = true
    /\ ret = [6; 5; 0; 6; 5]%nat
    /\ alert_type <$> heap w' !! 6%nat = Some "plannerError/noEntry"
    /\ alert_type <$> heap w' !! 5%nat
       = Some "plannerError/immediateDisable"
    /\ alert_type <$> heap w' !! 0%nat = Some "debugAlert/permanent"
    /\ alert_priority <$> heap w' !! 6%nat = Some LOW
    /\ alert_priority <$> heap w' !! 5%nat = Some HIGHEST
  | _ => False
  end.
Proof. vm_compute. repeat split. Qed.

(** A witness of C7, on [world1]. *)
Lemma create_alerts_in_order_witness :
  let w := Excerpt.world1 in
  let event_types := [NO_ENTRY; IMMEDIATE_DISABLE; PERMANENT] in
  (ready Excerpt.EVENTS Excerpt.EVENT_NAME Excerpt.DT_CTRL event_types None w
   = true
   <-> exists ret w',
         create_alerts Excerpt.EVENTS Excerpt.EVENT_NAME Excerpt.DT_CTRL
           event_types None w = Return ret w')
  /\ forall ret w',
       create_alerts Excerpt.EVENTS Excerpt.EVENT_NAME Excerpt.DT_CTRL
         event_types None w = Return ret w' ->
       self w' = self w
       /\ (fun l => heap w' !! l) <$> ret
          = Some <$> (events (self w) ≫= fun e => event_types ≫= fun et =>
                        emitted Excerpt.EVENTS Excerpt.EVENT_NAME
                          Excerpt.DT_CTRL w None e et)
       /\ forall e et a,
            a ∈ emitted Excerpt.EVENTS Excerpt.EVENT_NAME Excerpt.DT_CTRL
                  w None e et ->
            emitted Excerpt.EVENTS Excerpt.EVENT_NAME Excerpt.DT_CTRL
              w None e et = [a]
            /\ (forall nm, Excerpt.EVENT_NAME !! e = Some nm ->
                alert_type a = nm +:+ "/" +:+ ET_str et)
            /\ event_type a = Some et
            /\ exists spec a0,
                 spec_at Excerpt.EVENTS e et = Some spec
                 /\ resolve (heap w) None spec = Some a0
                 /\ erase a = erase a0.
Proof.
  apply (create_alerts_in_order Excerpt.EVENTS Excerpt.EVENT_NAME
           Excerpt.DT_CTRL Excerpt.world1
           [NO_ENTRY; IMMEDIATE_DISABLE; PERMANENT] None).
  apply (bool_decide_unpack _). vm_compute. exact I.
Defined.

(** [gasPressed] has a [PRE_ENABLE] alert with [creation_delay=1.]: at
    100 Hz it is withheld in the 99th consecutive cycle the event is raised
    in (the log of [raised_reached] at 98), and returned in the 100th,
    where [0.01 * 100 >= 1.] holds with equality. *)
Example gasPressed_delay :
  let gas n :=
    log_with Excerpt.EVENTS [Excerpt.gasPressed] [] Excerpt.gasPressed n
             Excerpt.heap0 in
  create_alerts Excerpt.EVENTS Excerpt.EVENT_NAME Excerpt.DT_CTRL
    [PRE_ENABLE] None (gas 98)
  = Return [] (gas 98)
  /\ elapsed_cycles Excerpt.gasPressed (gas 99)
     = Return 100 (gas 99)
  /\ PrimFloat.eqb (Excerpt.DT_CTRL * Z2float 100) 1 = true
  /\ match create_alerts Excerpt.EVENTS Excerpt.EVENT_NAME Excerpt.DT_CTRL
             [PRE_ENABLE] None (gas 99) with
     | Return ret w' =>
       ready Excerpt.EVENTS Excerpt.EVENT_NAME Excerpt.DT_CTRL
         [PRE_ENABLE] None (gas 99) = true
       /\ ret = [1%nat]
       /\ alert_type <$> heap w' !! 1%nat = Some "gasPressed/preEnable"
       /\ event_type <$> heap w' !! 1%nat = Some (Some PRE_ENABLE)
     | _ => False
     end.
Proof. vm_compute. repeat split. Qed.

(** [noGps], kept as a static event, has a [PERMANENT] alert built by a
    callback with [creation_delay=300.]: it is withheld 29998 cycles after
    the event was added (the log of [kept_reached]; 29999 cycles elapsed)
    and returned one cycle later, where [0.01 * 30000 >= 300.] holds with
    equality. *)
Example noGps_delay :
  let gps n :=
    log_with Excerpt.EVENTS [Excerpt.noGps] [Excerpt.noGps] Excerpt.noGps n
             Excerpt.heap0 in
  match create_alerts Excerpt.EVENTS Excerpt.EVENT_NAME Excerpt.DT_CTRL
          [PERMANENT] (Some Excerpt.args0)
          (gps 29998) with
  | Return ret w' => ret = []
  | _ => False
  end
  /\ PrimFloat.eqb (Excerpt.DT_CTRL * Z2float 30000) 300 = true
  /\ match create_alerts Excerpt.EVENTS Excerpt.EVENT_NAME Excerpt.DT_CTRL
             [PERMANENT] (Some Excerpt.args0)
             (gps 29999) with
     | Return ret w' =>
       ret = [7%nat]
       /\ alert_type <$> heap w' !! 7%nat = Some "noGps/permanent"
     | _ => False
     end.
Proof. vm_compute. repeat split. Qed.

(** A witness of C2: [gasPressed] in the 100th cycle it is raised in. *)
Lemma creation_delay_gate_witness :
  let w := log_with Excerpt.EVENTS [Excerpt.gasPressed] []
             Excerpt.gasPressed 99 Excerpt.heap0 in
  let event_types := [PRE_ENABLE] in
  (ready Excerpt.EVENTS Excerpt.EVENT_NAME Excerpt.DT_CTRL event_types None w
   = true ->
   exists ret w',
     create_alerts Excerpt.EVENTS Excerpt.EVENT_NAME Excerpt.DT_CTRL
       event_types None w = Return ret w')
  /\ forall ret w',
       create_alerts Excerpt.EVENTS Excerpt.EVENT_NAME Excerpt.DT_CTRL
         event_types None w = Return ret w' ->
       (fun l => heap w' !! l) <$> ret
       = Some <$> (events (self w) ≫= fun e => event_types ≫= fun et =>
                     emitted Excerpt.EVENTS Excerpt.EVENT_NAME
                       Excerpt.DT_CTRL w None e et)
       /\ forall e et spec a c,
            spec_at Excerpt.EVENTS e et = Some spec ->
            resolve (heap w) None spec = Some a ->
            events_prev (self w) !! e = Some c ->
            let elapsed := (Excerpt.DT_CTRL * Z2float (c + 1))%float in
            (PrimFloat.leb (creation_delay a) elapsed = true ->
             emitted Excerpt.EVENTS Excerpt.EVENT_NAME Excerpt.DT_CTRL
               w None e et = [stamp Excerpt.EVENT_NAME e et a])
            /\ (PrimFloat.leb (creation_delay a) elapsed = false ->
                emitted Excerpt.EVENTS Excerpt.EVENT_NAME Excerpt.DT_CTRL
                  w None e et = [])
            /\ (PrimFloat.ltb elapsed (creation_delay a) = true ->
                emitted Excerpt.EVENTS Excerpt.EVENT_NAME Excerpt.DT_CTRL
                  w None e et = [])
            /\ (PrimFloat.eqb elapsed (creation_delay a) = true ->
                emitted Excerpt.EVENTS Excerpt.EVENT_NAME Excerpt.DT_CTRL
                  w None e et = [stamp Excerpt.EVENT_NAME e et a])
            /\ (events (self w) = [e] -> event_types = [et] ->
                (ret <> [] <->
                 PrimFloat.leb (creation_delay a) elapsed = true)).
Proof.
  apply (creation_delay_gate Excerpt.EVENTS Excerpt.EVENT_NAME
           Excerpt.DT_CTRL
           (log_with Excerpt.EVENTS [Excerpt.gasPressed] []
                     Excerpt.gasPressed 99 Excerpt.heap0)
           [PRE_ENABLE] None).
  apply (bool_decide_unpack _). vm_compute. exact I.
Defined.

(** * Further properties *)

Section MoreFacts.

Context {Args : Type}.
Variable EVENTS : gmap EventId (gmap ET (AlertSpec Args)).
Variable EVENT_NAME : gmap EventId string.
Variable DT_CTRL : float.

(** ** [any], [to_msg] and [add_from_msg] *)

(** X1. [any(event_type)] is [True] exactly when one of the messages of
    [to_msg()] has the flag of [event_type] set: a reader of the messages
    sees what [any] sees. *)
Theorem any_agrees_with_to_msg event_type w :
  exists b msg,
    any EVENTS event_type w = Return b w
    /\ to_msg EVENTS w = Return msg w
    /\ (b = true <-> exists ev, ev ∈ msg /\ CarEvent_get ev event_type = true).
Proof.
  eexists _, _. split; [apply any_Return|]. split; [apply to_msg_Return|].
  rewrite any_loop_true. split.
  - intros (e & He & Hs). exists (CarEvent_of EVENTS e). split.
    + by apply list_elem_of_fmap_2.
    + by apply CarEvent_of_get.
  - intros (ev & (e & -> & He)%list_elem_of_fmap & Hg).
    exists e. split; [done|]. by apply CarEvent_of_get.
Qed.

(** X2. The flags of received messages are not kept: [to_msg] after
    [add_from_msg(msg)] on a new log gives, for each received message, a
    message with the same name and with the flags [EVENTS] has for that
    name, whatever flags were received. Messages that come from [to_msg]
    are given back as they are. *)
Theorem to_msg_after_add_from_msg msg h :
  exists w' out,
    add_from_msg msg (mkWorld (Events_init EVENTS) h) = Return tt w'
    /\ to_msg EVENTS w' = Return out w'
    /\ length out = length msg
    /\ (forall i m ev,
          msg !! i = Some m -> out !! i = Some ev ->
          name ev = name m
          /\ forall et, CarEvent_get ev et = true
                        <-> is_Some (spec_at EVENTS (name m) et))
    /\ (forall w, to_msg EVENTS w = Return msg w -> out = msg).
Proof.
  eexists _, _. split; [apply add_from_msg_Return|].
  split; [apply to_msg_Return|]. simpl. split; [by rewrite !length_fmap|].
  split.
  - intros i m ev Hm Hev. rewrite !list_lookup_fmap, Hm in Hev.
    injection Hev as <-. split; [apply CarEvent_of_name|].
    apply CarEvent_of_get.
  - intros w Hw. rewrite to_msg_Return in Hw. injection Hw as <-.
    rewrite <- !list_fmap_compose. apply list_fmap_ext. intros i e _. simpl.
    by rewrite CarEvent_of_name.
Qed.

(** X3. [add_from_msg(msg)] does what [add(m.name.raw)] does for each
    message in turn, never as a static event: the names it adds are gone
    after the next [clear]. *)
Theorem add_from_msg_as_adds msg w :
  add_from_msg msg w
  = for_each (name <$> msg) (fun _ e => add e false) tt w
  /\ events (self (after clear (after (add_from_msg msg) w)))
     = static_events (self w).
Proof.
  split.
  - rewrite add_from_msg_Return. revert w.
    induction msg as [|m msg IH]; intros [[es ss prev] h]; simpl.
    + by rewrite app_nil_r.
    + erewrite bind_Return; [|apply add_Return]. rewrite <- IH. simpl.
      by rewrite <- app_assoc.
  - unfold after. by rewrite add_from_msg_Return, clear_Return.
Qed.

(** X12. [add] makes [any(event_type)] true if the added event has an
    entry for [event_type], and otherwise leaves its answer as it was. *)
Theorem any_after_add event_type event_name static w :
  exists b,
    any EVENTS event_type w = Return b w
    /\ any EVENTS event_type (after (add event_name static) w)
       = Return (b || bool_decide (is_Some (spec_at EVENTS event_name
                                              event_type)))
                (after (add event_name static) w).
Proof.
  eexists. split; [apply any_Return|]. rewrite any_Return. f_equal.
  unfold after. rewrite add_Return. simpl.
  induction (events (self w)) as [|e es IH]; simpl.
  - rewrite spec_at_get.
    repeat case_bool_decide; try done;
      rewrite elem_of_dom in *; tauto.
  - by destruct (bool_decide (event_type ∈ dom (EVENTS_get EVENTS e))).
Qed.

(** ** Histories *)

Lemma exec_self (c : call Args) w :
  self (exec EVENTS EVENT_NAME DT_CTRL c w)
  = match c with
    | call_add event_name static =>
      mkEvents (events (self w) ++ [event_name])
               (if static then static_events (self w) ++ [event_name]
                else static_events (self w))
               (events_prev (self w))
    | call_clear =>
      mkEvents (static_events (self w)) (static_events (self w))
        (map_imap (fun k v =>
           Some (if bool_decide (k ∈ events (self w)) then v + 1 else 0))
           (events_prev (self w)))
    | call_add_from_msg msg =>
      mkEvents (events (self w) ++ (name <$> msg))
               (static_events (self w)) (events_prev (self w))
    | _ => self w
    end.
Proof.
  destruct c; try apply exec_create_alerts_self; unfold exec, after.
  - by rewrite add_Return.
  - by rewrite clear_Return.
  - by rewrite any_Return.
  - by rewrite add_from_msg_Return.
  - by rewrite to_msg_Return.
  - done.
  - done.
Qed.

Lemma static_adds_snoc (cs : list (call Args)) c :
  static_adds (cs ++ [c]) = static_adds cs ++ static_adds [c].
Proof. unfold static_adds. by rewrite bind_app. Qed.

Lemma clears_snoc (cs : list (call Args)) c :
  clears (cs ++ [c])
  = (clears cs + match c with call_clear => 1 | _ => 0 end)%nat.
Proof.
  unfold clears. rewrite bind_app, length_app. f_equal. by destruct c.
Qed.

(** X4. Whatever is called, [static_events] only grows, and by exactly the
    names given to [add] with [static=True], in the order of the calls;
    no other method, and no [add] without [static], touches it. *)
Theorem static_events_history (cs : list (call Args)) w :
  static_events (self (run EVENTS EVENT_NAME DT_CTRL cs w))
  = static_events (self w) ++ static_adds cs.
Proof.
  induction cs as [|c cs IH] using rev_ind.
  - by rewrite app_nil_r.
  - rewrite run_snoc, exec_self, static_adds_snoc, app_assoc, <- IH.
    destruct c as [e [|]| | | | | | |]; simpl; by rewrite ?app_nil_r.
Qed.

Lemma exec_static_active (c : call Args) w :
  static_events (self w) ⊆ events (self w) ->
  static_events (self (exec EVENTS EVENT_NAME DT_CTRL c w))
  ⊆ events (self (exec EVENTS EVENT_NAME DT_CTRL c w)).
Proof.
  intros Hsub. rewrite exec_self.
  destruct c as [e [|]| | | | | | |]; simpl; try done.
  - intros x [Hx|Hx]%elem_of_app; apply elem_of_app; [left|right]; auto.
  - intros x Hx. apply elem_of_app. left. auto.
  - intros x Hx. apply elem_of_app. left. auto.
Qed.

(** X5. On a log that starts new, every static event is always among the
    active ones, whatever is called. *)
Theorem static_events_are_active (cs : list (call Args)) h :
  let w := run EVENTS EVENT_NAME DT_CTRL cs (mkWorld (Events_init EVENTS) h)
  in static_events (self w) ⊆ events (self w).
Proof.
  simpl. induction cs as [|c cs IH] using rev_ind; [done|].
  rewrite run_snoc. by apply exec_static_active.
Qed.

(** X6. The counter of a static event never restarts: from a state in
    which [e] is static, active and has counter [c], the counter after any
    calls is [c] plus the number of calls of [clear] among them, and [e]
    is still static and active. *)
Theorem static_event_counts_clears (cs : list (call Args)) w e c :
  e ∈ static_events (self w) ->
  e ∈ events (self w) ->
  events_prev (self w) !! e = Some c ->
  let w' := run EVENTS EVENT_NAME DT_CTRL cs w in
  events_prev (self w') !! e = Some (c + Z.of_nat (clears cs))
  /\ e ∈ static_events (self w')
  /\ e ∈ events (self w').
Proof.
  intros Hs He Hc. simpl. induction cs as [|c0 cs IH] using rev_ind.
  - simpl. by rewrite Z.add_0_r.
  - destruct IH as (IHc & IHs & IHe).
    rewrite run_snoc, exec_self, clears_snoc.
    destruct c0 as [e0 [|]| | | | | | |]; simpl;
      rewrite ?Nat.add_0_r, ?elem_of_app; try done; try tauto.
    rewrite map_lookup_imap, IHc. simpl.
    rewrite bool_decide_true by done. split; [|done]. f_equal. lia.
Qed.

(** X7. On a log that starts new, every counter is at least zero and at
    most the number of calls of [clear] so far. *)
Theorem counters_bounded (cs : list (call Args)) h :
  map_Forall (fun _ c => 0 <= c <= Z.of_nat (clears cs))
    (events_prev
       (self (run EVENTS EVENT_NAME DT_CTRL cs
                (mkWorld (Events_init EVENTS) h)))).
Proof.
  induction cs as [|c0 cs IH] using rev_ind.
  - intros k c. simpl. rewrite lookup_fmap.
    destruct (EVENTS !! k); simpl; [|done]. intros [= <-]. done.
  - rewrite run_snoc, exec_self, clears_snoc.
    destruct c0 as [e0 b| | | | | | |]; simpl;
      rewrite ?Nat.add_0_r; try done.
    intros k c. rewrite map_lookup_imap.
    destruct (events_prev _ !! k) as [v|] eqn:Hv; simpl; [|done].
    specialize (IH k v Hv). simpl in IH.
    intros [= <-]. case_bool_decide; lia.
Qed.

(** ** [create_alerts]: edge cases and errors *)

Lemma create_alerts_no_types_loop es ret w callback_args :
  for_each es (fun ret e =>
    types ← getitem EVENTS e;
    for_each [] (fun ret et =>
      if bool_decide (et ∈ dom types)
      then create_alert EVENTS EVENT_NAME DT_CTRL callback_args e ret et
      else mret ret) ret) ret w
  = if forallb (fun e => bool_decide (is_Some (EVENTS !! e))) es
    then Return ret w else Raised KeyError w.
Proof.
  induction es as [|e es IH]; [done|].
  rewrite for_each_cons. cbn [forallb].
  unfold mbind at 1, M_bind at 1, getitem.
  destruct (EVENTS !! e) as [types|]; [|done]. apply IH.
Qed.

(** X8. With no active event [create_alerts] returns the empty list and
    changes nothing. With no requested type it returns the empty list if
    every active event is a key of [EVENTS] and raises [KeyError]
    otherwise, and changes nothing either way. *)
Theorem create_alerts_edge_cases :
  (forall w event_types callback_args,
     events (self w) = [] ->
     create_alerts EVENTS EVENT_NAME DT_CTRL event_types callback_args w
     = Return [] w)
  /\ (forall w callback_args,
        create_alerts EVENTS EVENT_NAME DT_CTRL [] callback_args w
        = if forallb (fun e => bool_decide (is_Some (EVENTS !! e)))
                     (events (self w))
          then Return [] w else Raised KeyError w).
Proof.
  split.
  - intros w event_types callback_args He. unfold create_alerts.
    erewrite bind_Return; [|done]. by rewrite He.
  - intros w callback_args. unfold create_alerts.
    erewrite bind_Return; [|done]. apply create_alerts_no_types_loop.
Qed.

(** X9. Called without [callback_args], [create_alerts] does not return
    when an active event has a callback under a requested type. When that
    event is the only active one and that type the only requested one, it
    raises [TypeError] and changes nothing. *)
Theorem create_alerts_needs_callback_args w event_types e et f :
  store_ok EVENTS (heap w) ->
  e ∈ events (self w) ->
  et ∈ event_types ->
  spec_at EVENTS e et = Some (Callback f) ->
  (exists ex w',
     create_alerts EVENTS EVENT_NAME DT_CTRL event_types None w
     = Raised ex w')
  /\ (events (self w) = [e] -> event_types = [et] ->
      create_alerts EVENTS EVENT_NAME DT_CTRL event_types None w
      = Raised TypeError w).
Proof.
  intros Hok He Het Hsp. split.
  - pose proof (create_alerts_spec EVENTS EVENT_NAME DT_CTRL w event_types
                  None Hok) as H.
    destruct (create_alerts _ _ _ _ _ w) as [ret w'|ex w'|];
      [|by eauto|done].
    destruct H as [Hready _]. unfold ready in Hready.
    rewrite forallb_forall in Hready.
    apply list_elem_of_In in He. specialize (Hready e He).
    apply andb_true_iff in Hready as [_ Hready].
    rewrite forallb_forall in Hready.
    apply list_elem_of_In in Het. specialize (Hready et Het).
    unfold entry_ready in Hready. rewrite Hsp in Hready. simpl in Hready.
    by destruct (events_prev (self w) !! e).
  - intros He1 ->. apply spec_at_Some in Hsp as (types & HE & Ht).
    unfold create_alerts. erewrite bind_Return; [|done].
    rewrite He1. rewrite !for_each_cons.
    unfold mbind at 1, M_bind at 1, getitem. rewrite HE.
    cbn [mret M_ret]. rewrite for_each_cons.
    rewrite bool_decide_true by (apply elem_of_dom; eauto).
    by rewrite (create_alert_no_args _ _ _ _ _ _ _ _ _ HE Ht).
Qed.

Lemma length_bind_le {X Y} (f : X -> list Y) (l : list X) n :
  (forall x, (length (f x) <= n)%nat) ->
  (length (l ≫= f) <= length l * n)%nat.
Proof.
  intros Hf. induction l as [|x l IH]; [done|].
  rewrite bind_cons, length_app. specialize (Hf x). simpl. lia.
Qed.

Lemma emitted_length w callback_args e et :
  (length (emitted EVENTS EVENT_NAME DT_CTRL w callback_args e et) <= 1)%nat.
Proof.
  unfold emitted. destruct (_ ≫= _); [|simpl; lia].
  destruct (passes _ _ _ _); simpl; lia.
Qed.

(** X10. [create_alerts] returns at most one alert for each pair of an
    active event and a requested type. *)
Theorem create_alerts_length w event_types callback_args ret w' :
  store_ok EVENTS (heap w) ->
  create_alerts EVENTS EVENT_NAME DT_CTRL event_types callback_args w
  = Return ret w' ->
  (length ret <= length (events (self w)) * length event_types)%nat.
Proof.
  intros Hok Hr.
  pose proof (create_alerts_spec EVENTS EVENT_NAME DT_CTRL w event_types
                callback_args Hok) as H.
  rewrite Hr in H. destruct H as (_ & _ & Hret & _).
  apply (f_equal length) in Hret. rewrite !length_fmap in Hret.
  rewrite Hret. apply length_bind_le. intros e.
  rewrite <- (Nat.mul_1_r (length event_types)).
  apply length_bind_le. intros et. apply emitted_length.
Qed.

(** X11. [create_alerts] returns or raises, and either way leaves [events],
    [static_events] and [events_prev] as they were. *)
Theorem create_alerts_keeps_self w event_types callback_args :
  store_ok EVENTS (heap w) ->
  (exists ret w',
     create_alerts EVENTS EVENT_NAME DT_CTRL event_types callback_args w
     = Return ret w' /\ self w' = self w)
  \/ (exists ex w',
        create_alerts EVENTS EVENT_NAME DT_CTRL event_types callback_args w
        = Raised ex w' /\ self w' = self w).
Proof.
  intros Hok.
  pose proof (create_alerts_spec EVENTS EVENT_NAME DT_CTRL w event_types
                callback_args Hok) as H.
  pose proof (framed_create_alerts EVENTS EVENT_NAME DT_CTRL event_types
                callback_args w) as Hf.
  destruct (create_alerts _ _ _ _ _ w) as [ret w'|ex w'|]; [| |done].
  - left. exists ret, w'. split; [done|apply Hf].
  - right. exists ex, w'. split; [done|apply Hf].
Qed.

(** ** The tags of the instances *)

Lemma store_ok_mono h h' :
  store_ok EVENTS h -> (length h <= length h')%nat -> store_ok EVENTS h'.
Proof.
  intros Hok Hlen e1 types1 HE1 et1 spec1 Ht1.
  specialize (Hok e1 types1 HE1 et1 spec1 Ht1). simpl in *.
  destruct (spec_loc spec1); [|done]. destruct Hok. split; [lia|done].
Qed.

Lemma tagged_length w w' :
  tagged EVENTS EVENT_NAME w w' ->
  (length (heap w) <= length (heap w'))%nat.
Proof.
  intros Ht. destruct (decide (length (heap w) <= length (heap w'))%nat);
    [done|].
  destruct (lookup_lt_is_Some_2 (heap w) (length (heap w'))) as [a Ha];
    [lia|].
  destruct (Ht _ _ Ha) as [H|(? & ? & _ & H)];
    apply lookup_lt_Some in H; lia.
Qed.

Lemma tagged_refl w : tagged EVENTS EVENT_NAME w w.
Proof. intros l a Ha. by left. Qed.

Lemma tagged_same_heap w w' :
  heap w' = heap w -> tagged EVENTS EVENT_NAME w w'.
Proof. intros Hh l a Ha. left. by rewrite Hh. Qed.

Lemma tagged_trans h w1 w2 w3 :
  store_ok EVENTS h ->
  tagged EVENTS EVENT_NAME w1 w2 -> tagged EVENTS EVENT_NAME w2 w3 ->
  tagged EVENTS EVENT_NAME w1 w3.
Proof.
  intros Hok H12 H23 l a Ha.
  destruct (H12 l a Ha) as [H2|(e & et & Hsp & H2)].
  - apply (H23 l a H2).
  - right. exists e, et. split; [done|].
    destruct (H23 l _ H2) as [H3|(e' & et' & Hsp' & H3)]; [done|].
    by destruct (store_ok_inj EVENTS _ _ _ _ _ _ Hok Hsp Hsp') as [<- <-].
Qed.

Lemma tagged_snoc w x :
  tagged EVENTS EVENT_NAME w (mkWorld (self w) (heap w ++ [x])).
Proof.
  intros l a Ha. left. simpl. rewrite lookup_app_l; [done|].
  by eapply lookup_lt_Some.
Qed.

Lemma create_alert_tagged w callback_args e ret et types spec :
  store_ok EVENTS (heap w) ->
  EVENTS !! e = Some types ->
  types !! et = Some spec ->
  match create_alert EVENTS EVENT_NAME DT_CTRL callback_args e ret et w with
  | Return _ w' | Raised _ w' => tagged EVENTS EVENT_NAME w w'
  | Wrong => False
  end.
Proof.
  intros Hok HE Ht.
  assert (spec_at EVENTS e et = Some spec) as Hsp
    by (apply spec_at_Some; eauto).
  destruct spec as [l|f].
  - pose proof (store_ok_lt EVENTS _ _ _ _ Hok Hsp) as Hlt.
    destruct (lookup_lt_is_Some_2 _ _ Hlt) as [a Ha].
    rewrite (create_alert_static _ _ _ _ _ _ _ _ _ _ _ HE Ht Ha).
    destruct (events_prev (self w) !! e); [|apply tagged_refl].
    destruct (PrimFloat.is_infinity _); [apply tagged_refl|].
    destruct (passes _ _ _ _); [|apply tagged_refl].
    destruct (EVENT_NAME !! e); [|apply tagged_refl].
    intros l' a' Ha'. simpl. destruct (decide (l' = l)) as [->|Hne].
    + right. exists e, et. split; [done|].
      rewrite Ha in Ha'. injection Ha' as <-.
      apply list_lookup_insert_eq. by eapply lookup_lt_Some.
    + left. by rewrite list_lookup_insert_ne.
  - destruct callback_args as [args|].
    2:{ rewrite (create_alert_no_args _ _ _ _ _ _ _ _ _ HE Ht).
        apply tagged_refl. }
    rewrite (create_alert_callback _ _ _ _ _ _ _ _ _ _ HE Ht).
    destruct (events_prev (self w) !! e); [|apply tagged_snoc].
    destruct (PrimFloat.is_infinity _); [apply tagged_snoc|].
    destruct (passes _ _ _ _); [|apply tagged_snoc].
    destruct (EVENT_NAME !! e); apply tagged_snoc.
Qed.

Lemma create_alerts_inner_tagged w0 callback_args e types event_types :
  store_ok EVENTS (heap w0) ->
  EVENTS !! e = Some types ->
  forall ret w,
    tagged EVENTS EVENT_NAME w0 w ->
    match for_each event_types (fun ret et =>
            if bool_decide (et ∈ dom types)
            then create_alert EVENTS EVENT_NAME DT_CTRL callback_args e ret et
            else mret ret) ret w with
    | Return _ w' | Raised _ w' => tagged EVENTS EVENT_NAME w0 w'
    | Wrong => False
    end.
Proof.
  intros Hok HE.
  induction event_types as [|et ets IH]; intros ret w Htag; [done|].
  rewrite for_each_cons.
  case_bool_decide as Hd; [|by apply IH].
  apply elem_of_dom in Hd as [spec Ht].
  assert (store_ok EVENTS (heap w)) as Hok'
    by (eapply store_ok_mono; [done|by apply tagged_length]).
  pose proof (create_alert_tagged w callback_args e ret et types spec
                Hok' HE Ht) as Hstep.
  destruct (create_alert _ _ _ _ _ _ _ w) as [ret1 w1|ex w1|]; [| |done].
  - apply IH. by eapply tagged_trans.
  - by eapply tagged_trans.
Qed.

Lemma create_alerts_outer_tagged w0 event_types callback_args es :
  store_ok EVENTS (heap w0) ->
  forall ret w,
    tagged EVENTS EVENT_NAME w0 w ->
    match for_each es (fun ret e =>
            types ← getitem EVENTS e;
            for_each event_types (fun ret et =>
              if bool_decide (et ∈ dom types)
              then create_alert EVENTS EVENT_NAME DT_CTRL callback_args
                                e ret et
              else mret ret) ret) ret w with
    | Return _ w' | Raised _ w' => tagged EVENTS EVENT_NAME w0 w'
    | Wrong => False
    end.
Proof.
  intros Hok. induction es as [|e es IH]; intros ret w Htag; [done|].
  rewrite for_each_cons. unfold mbind at 1, M_bind at 1, getitem.
  destruct (EVENTS !! e) as [types|] eqn:HE; [|done].
  cbn [mret M_ret].
  pose proof (create_alerts_inner_tagged w0 callback_args e types
                event_types Hok HE ret w Htag) as Hin.
  destruct (for_each event_types _ ret w) as [ret1 w1|ex w1|]; [|done..].
  by apply IH.
Qed.

Lemma exec_tagged (c : call Args) w :
  store_ok EVENTS (heap w) ->
  tagged EVENTS EVENT_NAME w (exec EVENTS EVENT_NAME DT_CTRL c w).
Proof.
  intros Hok.
  destruct c as [| | |event_types callback_args| | | |];
    try (apply tagged_same_heap; by apply exec_store_same).
  unfold exec, after.
  pose proof (create_alerts_outer_tagged w event_types callback_args
                (events (self w)) Hok [] w (tagged_refl w)) as H.
  unfold create_alerts. erewrite bind_Return; [|done].
  destruct (for_each _ _ _ w); [done..|apply tagged_refl].
Qed.

(** X13. Whatever is called, an [Alert] instance is either exactly as it
    was, or it is the instance [EVENTS] holds for some event [e] and type
    [et] and differs only in carrying the tag of that entry,
    [EVENT_NAME[e] + "/" + et] and [et]. So an instance that is in no
    entry of [EVENTS], such as an alert built by a callback, is never
    changed by a later call, and an instance of the table is never given
    the tag of another entry. *)
Theorem alerts_carry_own_tag (cs : list (call Args)) w :
  store_ok EVENTS (heap w) ->
  forall l a,
    heap w !! l = Some a ->
    let w' := run EVENTS EVENT_NAME DT_CTRL cs w in
    (heap w' !! l = Some a
     \/ exists e et,
          spec_at EVENTS e et = Some (Static l)
          /\ heap w' !! l = Some (stamp EVENT_NAME e et a))
    /\ ((forall e et, spec_at EVENTS e et <> Some (Static l)) ->
        heap w' !! l = Some a).
Proof.
  intros Hok.
  assert (tagged EVENTS EVENT_NAME w (run EVENTS EVENT_NAME DT_CTRL cs w))
    as Htag.
  { induction cs as [|c cs IH] using rev_ind; [apply tagged_refl|].
    rewrite run_snoc. eapply tagged_trans; [done|done|].
    apply exec_tagged. eapply store_ok_mono; [done|].
    by apply tagged_length. }
  intros l a Ha. simpl. split; [by apply Htag|]. intros Hno.
  destruct (Htag l a Ha) as [H|(e & et & Hsp & _)]; [done|].
  by destruct (Hno e et).
Qed.

(** ** Calling [create_alerts] again *)

Lemma forallb_pointwise {X} (f g : X -> bool) (l : list X) :
  (forall x, f x = g x) -> forallb f l = forallb g l.
Proof.
  intros Hfg. induction l as [|x l IH]; [done|]. simpl. by rewrite Hfg, IH.
Qed.

Lemma frame_lookup w w' l a :
  frame w w' -> heap w !! l = Some a ->
  exists a', heap w' !! l = Some a' /\ erase a' = erase a.
Proof.
  intros [_ Hpre] Ha.
  assert ((erase <$> heap w) !! l = Some (erase a)) as H0
    by by rewrite list_lookup_fmap, Ha.
  eapply prefix_lookup_Some in H0; [|apply Hpre].
  rewrite list_lookup_fmap in H0.
  destruct (heap w' !! l) as [a'|]; [|done].
  exists a'. split; [done|]. by apply (inj Some).
Qed.

Lemma emitted_frame w w' callback_args e et :
  store_ok EVENTS (heap w) -> frame w w' ->
  emitted EVENTS EVENT_NAME DT_CTRL w' callback_args e et
  = emitted EVENTS EVENT_NAME DT_CTRL w callback_args e et.
Proof.
  intros Hok Hf. pose proof Hf as [Hs _]. unfold emitted.
  destruct (spec_at EVENTS e et) as [[l|f]|] eqn:Hsp; simpl; [|by rewrite Hs|done].
  pose proof (store_ok_lt EVENTS _ _ _ _ Hok Hsp) as Hlt.
  destruct (lookup_lt_is_Some_2 _ _ Hlt) as [a Ha].
  destruct (frame_lookup w w' l a Hf Ha) as (a' & Ha' & Hera).
  rewrite Ha, Ha'. simpl.
  rewrite (passes_frame DT_CTRL w w' e a a' Hs Hera).
  by rewrite (stamp_erase EVENT_NAME e et a' a Hera).
Qed.

Lemma entry_ready_frame w w' callback_args e et :
  store_ok EVENTS (heap w) -> frame w w' ->
  entry_ready EVENTS EVENT_NAME DT_CTRL w' callback_args e et
  = entry_ready EVENTS EVENT_NAME DT_CTRL w callback_args e et.
Proof.
  intros Hok Hf. pose proof Hf as [Hs _]. unfold entry_ready.
  destruct (spec_at EVENTS e et) as [[l|f]|] eqn:Hsp; simpl; [|by rewrite Hs|done].
  pose proof (store_ok_lt EVENTS _ _ _ _ Hok Hsp) as Hlt.
  destruct (lookup_lt_is_Some_2 _ _ Hlt) as [a Ha].
  destruct (frame_lookup w w' l a Hf Ha) as (a' & Ha' & Hera).
  rewrite Ha, Ha'. simpl.
  by rewrite (passes_frame DT_CTRL w w' e a a' Hs Hera), Hs.
Qed.

(** X14. A second call of [create_alerts] with the same arguments, right
    after one that returned, returns too, and the alerts it returns have
    the same values, in the same order, as those of the first call: the
    tags the first call wrote on the instances of the table do not disturb
    the second. *)
Theorem create_alerts_again w event_types callback_args ret w' :
  store_ok EVENTS (heap w) ->
  create_alerts EVENTS EVENT_NAME DT_CTRL event_types callback_args w
  = Return ret w' ->
  exists ret2 w2,
    create_alerts EVENTS EVENT_NAME DT_CTRL event_types callback_args w'
    = Return ret2 w2
    /\ (fun l => heap w2 !! l) <$> ret2 = (fun l => heap w' !! l) <$> ret.
Proof.
  intros Hok Hr.
  pose proof (create_alerts_spec EVENTS EVENT_NAME DT_CTRL w event_types
                callback_args Hok) as H.
  rewrite Hr in H. destruct H as (Hready & Hf & Hret & _).
  pose proof Hf as [Hs Hpre].
  assert (store_ok EVENTS (heap w')) as Hok'.
  { eapply store_ok_mono; [done|]. apply prefix_length in Hpre.
    by rewrite !length_fmap in Hpre. }
  assert (ready EVENTS EVENT_NAME DT_CTRL event_types callback_args w'
          = true) as Hready'.
  { rewrite <- Hready. unfold ready. rewrite Hs.
    apply forallb_pointwise. intros e. f_equal.
    apply forallb_pointwise. intros et. by apply entry_ready_frame. }
  apply (create_alerts_Return EVENTS EVENT_NAME DT_CTRL _ _ _ Hok')
    in Hready' as (ret2 & w2 & Hr2).
  exists ret2, w2. split; [done|].
  pose proof (create_alerts_spec EVENTS EVENT_NAME DT_CTRL w' event_types
                callback_args Hok') as H2.
  rewrite Hr2 in H2. destruct H2 as (_ & _ & Hret2 & _).
  rewrite Hret2, Hret, Hs. f_equal.
  apply list_bind_ext; [|done]. intros e.
  apply list_bind_ext; [|done]. intros et. by apply emitted_frame.
Qed.

End MoreFacts.


(** * The store across calls *)

Section StoreFacts.

Context {Args : Type}.
Variable EVENTS : gmap EventId (gmap ET (AlertSpec Args)).
Variable EVENT_NAME : gmap EventId string.
Variable DT_CTRL : float.

Lemma frame_extend w0 w h' :
  frame w0 w ->
  erase <$> heap w `prefix_of` erase <$> h' ->
  frame w0 (mkWorld (self w) h').
Proof. intros [Hs Hpre] Hpre'. split; [done|]. simpl. by etrans. Qed.

Lemma frame_length w0 w :
  frame w0 w -> (length (heap w0) <= length (heap w))%nat.
Proof.
  intros [_ Hpre]. apply prefix_length in Hpre.
  by rewrite !length_fmap in Hpre.
Qed.

Lemma emitting_static w callback_args e et l a :
  spec_at EVENTS e et = Some (Static l) -> heap w !! l = Some a ->
  emitting EVENTS EVENT_NAME DT_CTRL w callback_args e et
  = if passes DT_CTRL (self w) e a then [(e, et)] else [].
Proof.
  intros Hsp Ha. unfold emitting.
  rewrite (emitted_static _ _ _ _ _ _ _ _ _ Hsp Ha).
  by destruct (passes _ _ _ _).
Qed.

Lemma emitting_callback w args e et f :
  spec_at EVENTS e et = Some (Callback f) ->
  emitting EVENTS EVENT_NAME DT_CTRL w (Some args) e et
  = if passes DT_CTRL (self w) e (f args) then [(e, et)] else [].
Proof.
  intros Hsp. unfold emitting.
  rewrite (emitted_callback _ _ _ _ _ _ _ _ Hsp).
  by destruct (passes _ _ _ _).
Qed.

Lemma emitting_None w callback_args e et :
  spec_at EVENTS e et = None ->
  emitting EVENTS EVENT_NAME DT_CTRL w callback_args e et = [].
Proof.
  intros Hsp. unfold emitting. by rewrite (emitted_None _ _ _ _ _ _ _ Hsp).
Qed.

(** The body of [if et in types:], when it runs to its end, appends the
    reference of the entry if the entry contributes, and writes to no other
    object. *)
Lemma create_alert_origin w0 ret pairs w callback_args e et types spec :
  store_ok EVENTS (heap w0) ->
  stamp_inv EVENTS w0 ret pairs w ->
  EVENTS !! e = Some types ->
  types !! et = Some spec ->
  match create_alert EVENTS EVENT_NAME DT_CTRL callback_args e ret et w with
  | Return ret' w' =>
    stamp_inv EVENTS w0 ret'
      (pairs ++ emitting EVENTS EVENT_NAME DT_CTRL w0 callback_args e et) w'
  | _ => True
  end.
Proof.
  intros Hok (Hf & Hret & Hun) HE Ht.
  assert (spec_at EVENTS e et = Some spec) as Hsp
    by (apply spec_at_Some; eauto).
  pose proof Hf as [Hs Hpre]. pose proof (frame_length _ _ Hf) as Hlen.
  destruct spec as [l|f].
  - pose proof (store_ok_lt _ _ _ _ _ Hok Hsp) as Hlt.
    destruct (lookup_lt_is_Some_2 _ _ Hlt) as [a0 Ha0].
    destruct (frame_lookup w0 w l a0 Hf Ha0) as (a & Ha & Hera).
    rewrite (create_alert_static _ _ _ _ _ _ _ _ _ _ _ HE Ht Ha).
    rewrite (emitting_static _ _ _ _ _ _ Hsp Ha0).
    rewrite (passes_frame DT_CTRL w0 w e a0 a Hs Hera).
    destruct (events_prev (self w) !! e); [|done].
    destruct (PrimFloat.is_infinity _); [done|].
    destruct (passes DT_CTRL (self w0) e a0).
    2:{ rewrite app_nil_r. done. }
    destruct (EVENT_NAME !! e); [|done].
    split; [|split].
    + apply frame_extend; [done|].
      by rewrite (fmap_erase_insert _ _ a).
    + apply Forall2_app; [done|]. constructor; [|constructor].
      unfold origin_ok. simpl. by rewrite Hsp.
    + intros l' Hl' Hnin. simpl.
      rewrite list_lookup_insert_ne.
      * apply Hun; [done|]. intros Hin. apply Hnin, elem_of_app. by left.
      * intros ->. apply Hnin, elem_of_app. right. left.
  - destruct callback_args as [args|].
    2:{ by rewrite (create_alert_no_args _ _ _ _ _ _ _ _ _ HE Ht). }
    rewrite (create_alert_callback _ _ _ _ _ _ _ _ _ _ HE Ht).
    rewrite (emitting_callback _ _ _ _ _ Hsp). rewrite Hs.
    assert (forall x, frame w0 (mkWorld (self w0) (heap w ++ [x]))) as Hfx.
    { intros x. rewrite <- Hs. apply frame_extend; [done|].
      rewrite fmap_app. by apply prefix_app_r. }
    assert (forall x l', (l' < length (heap w0))%nat ->
              (heap w ++ [x]) !! l' = heap w !! l') as Hold.
    { intros x l' Hl'. apply lookup_app_l. lia. }
    destruct (events_prev (self w0) !! e); [|done].
    destruct (PrimFloat.is_infinity _); [done|].
    destruct (passes DT_CTRL (self w0) e (f args)).
    + destruct (EVENT_NAME !! e); [|done].
      split; [apply Hfx|]. split.
      * apply Forall2_app; [done|]. constructor; [|constructor].
        unfold origin_ok. simpl. by rewrite Hsp.
      * intros l' Hl' Hnin. simpl. rewrite Hold by done.
        apply Hun; [done|]. intros Hin. apply Hnin, elem_of_app. by left.
    + rewrite app_nil_r. split; [apply Hfx|]. split; [done|].
      intros l' Hl' Hnin. simpl. rewrite Hold by done. by apply Hun.
Qed.

Lemma create_alerts_inner_origin w0 callback_args e types event_types :
  store_ok EVENTS (heap w0) ->
  EVENTS !! e = Some types ->
  forall ret pairs w,
    stamp_inv EVENTS w0 ret pairs w ->
    match for_each event_types (fun ret et =>
            if bool_decide (et ∈ dom types)
            then create_alert EVENTS EVENT_NAME DT_CTRL callback_args e ret et
            else mret ret) ret w with
    | Return ret' w' =>
      stamp_inv EVENTS w0 ret'
        (pairs ++ (event_types ≫= fun et =>
                     emitting EVENTS EVENT_NAME DT_CTRL w0 callback_args
                              e et))
        w'
    | _ => True
    end.
Proof.
  intros Hok HE.
  induction event_types as [|et ets IH]; intros ret pairs w Hinv.
  - simpl. by rewrite app_nil_r.
  - rewrite for_each_cons. cbn [mbind list_bind]. rewrite app_assoc.
    case_bool_decide as Hd; rewrite elem_of_dom in Hd.
    + destruct Hd as [spec Ht].
      pose proof (create_alert_origin w0 ret pairs w callback_args e et
                    types spec Hok Hinv HE Ht) as Hstep.
      destruct (create_alert _ _ _ _ _ _ _ w) as [ret1 w1| |]; [|done..].
      apply (IH _ _ _ Hstep).
    + assert (spec_at EVENTS e et = None) as Hsp.
      { unfold spec_at. rewrite HE. simpl. by apply eq_None_not_Some. }
      rewrite (emitting_None _ _ _ _ Hsp), app_nil_r.
      apply (IH _ _ _ Hinv).
Qed.

Lemma create_alerts_outer_origin w0 event_types callback_args es :
  store_ok EVENTS (heap w0) ->
  forall ret pairs w,
    stamp_inv EVENTS w0 ret pairs w ->
    match for_each es (fun ret e =>
            types ← getitem EVENTS e;
            for_each event_types (fun ret et =>
              if bool_decide (et ∈ dom types)
              then create_alert EVENTS EVENT_NAME DT_CTRL callback_args
                                e ret et
              else mret ret) ret) ret w with
    | Return ret' w' =>
      stamp_inv EVENTS w0 ret'
        (pairs ++ (es ≫= fun e => event_types ≫= fun et =>
                     emitting EVENTS EVENT_NAME DT_CTRL w0 callback_args
                              e et))
        w'
    | _ => True
    end.
Proof.
  intros Hok. induction es as [|e es IH]; intros ret pairs w Hinv.
  - simpl. by rewrite app_nil_r.
  - rewrite for_each_cons. cbn [mbind list_bind]. rewrite app_assoc.
    unfold mbind at 1, M_bind at 1, getitem.
    destruct (EVENTS !! e) as [types|] eqn:HE; [|done].
    cbn [mret M_ret].
    pose proof (create_alerts_inner_origin w0 callback_args e types
                  event_types Hok HE _ _ _ Hinv) as Hin.
    destruct (for_each event_types _ ret w) as [ret1 w1| |]; [|done..].
    apply (IH _ _ _ Hin).
Qed.

Lemma create_alerts_origin w event_types callback_args ret w' :
  store_ok EVENTS (heap w) ->
  create_alerts EVENTS EVENT_NAME DT_CTRL event_types callback_args w
  = Return ret w' ->
  stamp_inv EVENTS w ret
    (events (self w) ≫= fun e => event_types ≫= fun et =>
       emitting EVENTS EVENT_NAME DT_CTRL w callback_args e et)
    w'.
Proof.
  intros Hok Hr.
  assert (stamp_inv EVENTS w [] [] w) as H0.
  { split; [apply frame_refl|]. split; [constructor|done]. }
  pose proof (create_alerts_outer_origin w event_types callback_args
                (events (self w)) Hok [] [] w H0) as H.
  unfold create_alerts in Hr. erewrite bind_Return in Hr; [|done].
  by rewrite Hr in H.
Qed.

(** C8, as the code has it. On a store that holds the instances of the
    table, each under its one entry:
    - whatever is called, every instance is still there and differs from
      what it was at most in [alert_type] and [event_type]: the fields the
      constructor was given never change;
    - no method other than [create_alerts] writes to the store;
    - when [create_alerts] returns, it has returned one reference for each
      entry that contributes, in order: the instance [EVENTS] itself holds
      where the entry is an instance, an object that did not exist before
      the call where the entry is a callback; in particular the instance
      of an entry that passes the test is among them;
    - every instance of the table it returns has been assigned, in place,
      the [alert_type] and [event_type] of its entry;
    - and every object it does not return is exactly as it was.
    ([EVENTS] itself is a parameter of every method: none rebinds or
    updates it.) *)
Theorem alerts_change_only_by_stamping w :
  store_ok EVENTS (heap w) ->
  (forall (cs : list (call Args)) l a,
     heap w !! l = Some a ->
     exists a',
       heap (run EVENTS EVENT_NAME DT_CTRL cs w) !! l = Some a'
       /\ erase a' = erase a)
  /\ (forall c : call Args,
        (forall event_types callback_args,
           c <> call_create_alerts event_types callback_args) ->
        heap (exec EVENTS EVENT_NAME DT_CTRL c w) = heap w)
  /\ forall event_types callback_args ret w',
       create_alerts EVENTS EVENT_NAME DT_CTRL event_types callback_args w
       = Return ret w' ->
       Forall2 (origin_ok EVENTS (heap w)) ret
         (events (self w) ≫= fun e => event_types ≫= fun et =>
            emitting EVENTS EVENT_NAME DT_CTRL w callback_args e et)
       /\ (forall e et l a,
             e ∈ events (self w) -> et ∈ event_types ->
             spec_at EVENTS e et = Some (Static l) ->
             heap w !! l = Some a ->
             passes DT_CTRL (self w) e a = true ->
             l ∈ ret)
       /\ (forall e et l a,
             spec_at EVENTS e et = Some (Static l) ->
             heap w !! l = Some a ->
             l ∈ ret ->
             heap w' !! l = Some (stamp EVENT_NAME e et a)
             /\ alert_type (stamp EVENT_NAME e et a)
                = default "" (EVENT_NAME !! e) +:+ "/" +:+ ET_str et
             /\ event_type (stamp EVENT_NAME e et a) = Some et)
       /\ (forall l, l ∈ ret ->
             (exists e et, spec_at EVENTS e et = Some (Static l))
             \/ (length (heap w) <= l)%nat)
       /\ (forall l a,
             heap w !! l = Some a -> l ∉ ret -> heap w' !! l = Some a).
Proof.
  intros Hok. split; [|split].
  - intros cs l a Hl.
    pose proof (run_store EVENTS EVENT_NAME DT_CTRL cs w) as Hpre.
    assert ((erase <$> heap w) !! l = Some (erase a)) as Hl'
      by by rewrite list_lookup_fmap, Hl.
    eapply prefix_lookup_Some in Hl'; [|apply Hpre].
    rewrite list_lookup_fmap in Hl'.
    destruct (heap (run _ _ _ cs w) !! l) as [a'|]; [|done].
    exists a'. split; [done|]. by apply (inj Some).
  - intros c. apply exec_store_same.
  - intros event_types callback_args ret w' Hr.
    destruct (create_alerts_origin w event_types callback_args ret w'
                Hok Hr) as (Hf & HF2 & Hun).
    pose proof (create_alerts_spec EVENTS EVENT_NAME DT_CTRL w event_types
                  callback_args Hok) as Hspec.
    rewrite Hr in Hspec. destruct Hspec as (_ & _ & _ & HJ).
    split; [done|]. split; [|split; [|split]].
    + intros e et l a He Het Hsp Ha Hp.
      assert ((e, et) ∈ (events (self w) ≫= fun e => event_types ≫= fun et =>
                emitting EVENTS EVENT_NAME DT_CTRL w callback_args e et))
        as Hin.
      { apply list_elem_of_bind. exists e. split; [|done].
        apply list_elem_of_bind. exists et. split; [|done].
        rewrite (emitting_static _ _ _ _ _ _ Hsp Ha), Hp. left. }
      apply list_elem_of_lookup in Hin as [i Hi].
      destruct (Forall2_lookup_r _ _ _ _ _ HF2 Hi) as (l' & Hl' & Hor).
      unfold origin_ok in Hor. simpl in Hor. rewrite Hsp in Hor. subst l'.
      by eapply list_elem_of_lookup_2.
    + intros e et l a Hsp Ha Hl. split; [|done].
      pose proof (lookup_lt_Some _ _ _ Ha) as Hlt.
      destruct (HJ l Hl Hlt) as (e' & et' & a' & Hsp' & Ha').
      destruct (store_ok_inj _ _ _ _ _ _ _ Hok Hsp Hsp') as [<- <-].
      destruct (frame_lookup w w' l a Hf Ha) as (a'' & Ha'' & Hera).
      rewrite Ha' in Ha''. injection Ha'' as <-.
      rewrite Ha'. f_equal. by apply stamp_erase.
    + intros l Hl. apply list_elem_of_lookup in Hl as [i Hi].
      destruct (Forall2_lookup_l _ _ _ _ _ HF2 Hi) as ([e et] & _ & Hor).
      unfold origin_ok in Hor. simpl in Hor.
      destruct (spec_at EVENTS e et) as [[l0|f]|] eqn:Hsp;
        [|by right..].
      subst l0. left. by exists e, et.
    + intros l a Ha Hnin. rewrite <- Ha. apply Hun; [|done].
      by eapply lookup_lt_Some.
Qed.

End StoreFacts.

(** ** Witnesses on the excerpt of the table *)

(** A witness of X6: [noGps] added as a static event, then two cycles. *)
Lemma static_event_counts_clears_witness :
  let cs : list (call Excerpt.CallbackArgs) :=
    [call_clear; call_to_msg; call_add Excerpt.debugAlert false; call_clear]
  in
  let w := after (add Excerpt.noGps true) Excerpt.world0 in
  let w' := run Excerpt.EVENTS Excerpt.EVENT_NAME Excerpt.DT_CTRL cs w in
  events_prev (self w') !! Excerpt.noGps = Some (0 + Z.of_nat (clears cs))
  /\ Excerpt.noGps ∈ static_events (self w')
  /\ Excerpt.noGps ∈ events (self w').
Proof.
  apply (static_event_counts_clears Excerpt.EVENTS Excerpt.EVENT_NAME
           Excerpt.DT_CTRL
           [call_clear; call_to_msg; call_add Excerpt.debugAlert false;
            call_clear]
           (after (add Excerpt.noGps true) Excerpt.world0)
           Excerpt.noGps 0).
  - apply (bool_decide_unpack _). vm_compute. exact I.
  - apply (bool_decide_unpack _). vm_compute. exact I.
  - vm_compute. reflexivity.
Defined.

(** A witness of X9: [wrongCarMode], whose [NO_ENTRY] entry is a
    callback. *)
Lemma create_alerts_needs_callback_args_witness :
  let w := after (add Excerpt.wrongCarMode false) Excerpt.world0 in
  (exists ex w',
     create_alerts Excerpt.EVENTS Excerpt.EVENT_NAME Excerpt.DT_CTRL
       [NO_ENTRY] None w = Raised ex w')
  /\ (events (self w) = [Excerpt.wrongCarMode] -> [NO_ENTRY] = [NO_ENTRY] ->
      create_alerts Excerpt.EVENTS Excerpt.EVENT_NAME Excerpt.DT_CTRL
        [NO_ENTRY] None w = Raised TypeError w).
Proof.
  apply (create_alerts_needs_callback_args Excerpt.EVENTS Excerpt.EVENT_NAME
           Excerpt.DT_CTRL
           (after (add Excerpt.wrongCarMode false) Excerpt.world0)
           [NO_ENTRY] Excerpt.wrongCarMode NO_ENTRY
           Excerpt.wrong_car_mode_alert).
  - apply (bool_decide_unpack _). vm_compute. exact I.
  - apply (bool_decide_unpack _). vm_compute. exact I.
  - apply (bool_decide_unpack _). vm_compute. exact I.
  - reflexivity.
Defined.

(** A witness of X10, on [world1]. *)
Lemma create_alerts_length_witness :
  (length [6; 5; 0; 6; 5]%nat
   <= length (events (self Excerpt.world1))
      * length [NO_ENTRY; IMMEDIATE_DISABLE; PERMANENT])%nat.
Proof.
  apply (create_alerts_length Excerpt.EVENTS Excerpt.EVENT_NAME
           Excerpt.DT_CTRL Excerpt.world1
           [NO_ENTRY; IMMEDIATE_DISABLE; PERMANENT] None
           [6; 5; 0; 6; 5]%nat
           (after (create_alerts Excerpt.EVENTS Excerpt.EVENT_NAME
                     Excerpt.DT_CTRL
                     [NO_ENTRY; IMMEDIATE_DISABLE; PERMANENT] None)
                  Excerpt.world1)).
  - apply (bool_decide_unpack _). vm_compute. exact I.
  - vm_compute. reflexivity.
Defined.

(** A witness of X11, on [world1]. *)
Lemma create_alerts_keeps_self_witness :
  let w := Excerpt.world1 in
  (exists ret w',
     create_alerts Excerpt.EVENTS Excerpt.EVENT_NAME Excerpt.DT_CTRL
       [NO_ENTRY] None w = Return ret w' /\ self w' = self w)
  \/ (exists ex w',
        create_alerts Excerpt.EVENTS Excerpt.EVENT_NAME Excerpt.DT_CTRL
          [NO_ENTRY] None w = Raised ex w' /\ self w' = self w).
Proof.
  apply (create_alerts_keeps_self Excerpt.EVENTS Excerpt.EVENT_NAME
           Excerpt.DT_CTRL Excerpt.world1 [NO_ENTRY] None).
  apply (bool_decide_unpack _). vm_compute. exact I.
Defined.

#[local] Set Warnings "-inexact-float".

(** A witness of X13: the instance of [debugAlert] over a cycle in which
    it is returned. *)
Lemma alerts_carry_own_tag_witness :
  let cs : list (call Excerpt.CallbackArgs) :=
    [call_add Excerpt.debugAlert false;
     call_create_alerts [PERMANENT] None; call_clear] in
  let a := Alert_init "DEBUG ALERT" "" status_userPrompt size_mid LOW
             visual_none audible_none 0.1 0.1 0.1 0 0 in
  let w' := run Excerpt.EVENTS Excerpt.EVENT_NAME Excerpt.DT_CTRL cs
              Excerpt.world0 in
  (heap w' !! 0%nat = Some a
   \/ exists e et,
        spec_at Excerpt.EVENTS e et = Some (Static 0%nat)
        /\ heap w' !! 0%nat = Some (stamp Excerpt.EVENT_NAME e et a))
  /\ ((forall e et, spec_at Excerpt.EVENTS e et <> Some (Static 0%nat)) ->
      heap w' !! 0%nat = Some a).
Proof.
  apply (alerts_carry_own_tag Excerpt.EVENTS Excerpt.EVENT_NAME
           Excerpt.DT_CTRL
           [call_add Excerpt.debugAlert false;
            call_create_alerts [PERMANENT] None; call_clear]
           Excerpt.world0).
  - apply (bool_decide_unpack _). vm_compute. exact I.
  - reflexivity.
Defined.

(** A witness of X14, on [world1]. *)
Lemma create_alerts_again_witness :
  let event_types := [NO_ENTRY; IMMEDIATE_DISABLE; PERMANENT] in
  let w' := after (create_alerts Excerpt.EVENTS Excerpt.EVENT_NAME
                     Excerpt.DT_CTRL event_types None) Excerpt.world1 in
  exists ret2 w2,
    create_alerts Excerpt.EVENTS Excerpt.EVENT_NAME Excerpt.DT_CTRL
      event_types None w' = Return ret2 w2
    /\ (fun l => heap w2 !! l) <$> ret2
       = (fun l => heap w' !! l) <$> [6; 5; 0; 6; 5]%nat.
Proof.
  apply (create_alerts_again Excerpt.EVENTS Excerpt.EVENT_NAME
           Excerpt.DT_CTRL Excerpt.world1
           [NO_ENTRY; IMMEDIATE_DISABLE; PERMANENT] None
           [6; 5; 0; 6; 5]%nat).
  - apply (bool_decide_unpack _). vm_compute. exact I.
  - vm_compute. reflexivity.
Defined.

(** A witness of C8 as the code has it, on the store of the table. *)
Lemma alerts_change_only_by_stamping_witness :
  let w := Excerpt.world1 in
  (forall (cs : list (call Excerpt.CallbackArgs)) l a,
     heap w !! l = Some a ->
     exists a',
       heap (run Excerpt.EVENTS Excerpt.EVENT_NAME Excerpt.DT_CTRL cs w) !! l
       = Some a'
       /\ erase a' = erase a)
  /\ (forall c : call Excerpt.CallbackArgs,
        (forall event_types callback_args,
           c <> call_create_alerts event_types callback_args) ->
        heap (exec Excerpt.EVENTS Excerpt.EVENT_NAME Excerpt.DT_CTRL c w)
        = heap w)
  /\ forall event_types callback_args ret w',
       create_alerts Excerpt.EVENTS Excerpt.EVENT_NAME Excerpt.DT_CTRL
         event_types callback_args w = Return ret w' ->
       Forall2 (origin_ok Excerpt.EVENTS (heap w)) ret
         (events (self w) ≫= fun e => event_types ≫= fun et =>
            emitting Excerpt.EVENTS Excerpt.EVENT_NAME Excerpt.DT_CTRL
              w callback_args e et)
       /\ (forall e et l a,
             e ∈ events (self w) -> et ∈ event_types ->
             spec_at Excerpt.EVENTS e et = Some (Static l) ->
             heap w !! l = Some a ->
             passes Excerpt.DT_CTRL (self w) e a = true ->
             l ∈ ret)
       /\ (forall e et l a,
             spec_at Excerpt.EVENTS e et = Some (Static l) ->
             heap w !! l = Some a ->
             l ∈ ret ->
             heap w' !! l = Some (stamp Excerpt.EVENT_NAME e et a)
             /\ alert_type (stamp Excerpt.EVENT_NAME e et a)
                = default "" (Excerpt.EVENT_NAME !! e) +:+ "/" +:+ ET_str et
             /\ event_type (stamp Excerpt.EVENT_NAME e et a) = Some et)
       /\ (forall l, l ∈ ret ->
             (exists e et, spec_at Excerpt.EVENTS e et = Some (Static l))
             \/ (length (heap w) <= l)%nat)
       /\ (forall l a,
             heap w !! l = Some a -> l ∉ ret -> heap w' !! l = Some a).
Proof.
  apply (alerts_change_only_by_stamping Excerpt.EVENTS Excerpt.EVENT_NAME
           Excerpt.DT_CTRL Excerpt.world1).
  apply (bool_decide_unpack _). vm_compute. exact I.
Defined.

(** On [world1], asked for [NO_ENTRY] and [PERMANENT] with the arguments of
    the callbacks: the three instances returned are those of the table and
    carry their tags; the instance of [IMMEDIATE_DISABLE], not returned, is
    as it was. With [wrongCarMode] active, the alert of its callback is
    object 7, one more than the table has. *)
Example create_alerts_origins :
  match create_alerts Excerpt.EVENTS Excerpt.EVENT_NAME Excerpt.DT_CTRL
          [NO_ENTRY; PERMANENT] (Some Excerpt.args0) Excerpt.world1 with
  | Return ret w' =>
    ret = [6; 0; 6]%nat
    /\ alert_type <$> heap w' !! 6%nat = Some "plannerError/noEntry"
    /\ event_type <$> heap w' !! 6%nat = Some (Some NO_ENTRY)
    /\ alert_type <$> heap w' !! 0%nat = Some "debugAlert/permanent"
    /\ heap w' !! 5%nat = heap Excerpt.world1 !! 5%nat
    /\ length (heap w') = 7%nat
  | _ => False
  end
  /\ match create_alerts Excerpt.EVENTS Excerpt.EVENT_NAME Excerpt.DT_CTRL
             [NO_ENTRY] (Some Excerpt.args0)
             (after (add Excerpt.wrongCarMode false) Excerpt.world0) with
     | Return ret w' =>
       ret = [7]%nat
       /\ length (heap Excerpt.world0) = 7%nat
       /\ alert_type <$> heap w' !! 7%nat = Some "wrongCarMode/noEntry"
     | _ => False
     end.
Proof. vm_compute. repeat split. Qed.
